(** * Particles-Morphing: position normalizer, morph controller, sprite shader

  Shallow embedding of
    - [src/script.js]: the [gltfLoader.load] callback (normalization of the
      position arrays and construction of the [particles] object),
      [particles.morph], the [swapModels] interval callback and [tick];
    - [src/shaders/particles/fragment.glsl]: [main].

  Number models.  Elements of a [Float32Array] and GLSL [float]s are IEEE
  binary32 values ([spec_float] at precision 24, emax 128, round to nearest
  even).  The value returned by [Math.random()] and the clock of the tween
  engine are exact rationals.  Array indices and point counts are [nat];
  [particles.index] is a [Z] because [morph] stores whatever integer it is
  handed. *)

From Stdlib Require Import ZArith QArith Qround Qminmax Lia Lqa.
From Stdlib Require Import Floats.SpecFloat.
From stdpp Require Import base list.

(** ** IEEE binary32 *)

Module F32.

Definition prec : Z := 24.
Definition emax : Z := 128.

Definition float32 : Type := spec_float.

Definition NaN : float32 := S754_nan.
Definition zero : float32 := S754_zero false.

Definition of_Z (n : Z) : float32 := binary_normalize prec emax n 0 false.

Definition add : float32 -> float32 -> float32 := SFadd prec emax.
Definition sub : float32 -> float32 -> float32 := SFsub prec emax.
Definition mul : float32 -> float32 -> float32 := SFmul prec emax.
Definition div : float32 -> float32 -> float32 := SFdiv prec emax.
Definition sqrt : float32 -> float32 := SFsqrt prec emax.

(** A decimal literal [n / d] of the shader source, rounded to the nearest
    binary32 value (both [n] and [d] are small integers, hence exact, and
    the division rounds correctly). *)
Definition literal (n d : Z) : float32 := div (of_Z n) (of_Z d).

End F32.

Abbreviation float32 := F32.float32.

(** ** fragment.glsl *)

Module Shader.

Definition vec2 : Type := float32 * float32.

Record vec4 : Type := Vec4 { r : float32; g : float32; b : float32; a : float32 }.

(** [uv - 0.5]: the scalar is subtracted from each component. *)
Definition vec2_sub_scalar (v : vec2) (s : float32) : vec2 :=
  (F32.sub (fst v) s, F32.sub (snd v) s).

(** GLSL [length] of a [vec2]. *)
Definition length (v : vec2) : float32 :=
  F32.sqrt (F32.add (F32.mul (fst v) (fst v)) (F32.mul (snd v) (snd v))).

(** Line 8: [float alpha = 0.05 / distanceToCenter - 0.1;] *)
Definition alpha (distanceToCenter : float32) : float32 :=
  F32.sub (F32.div (F32.literal 5 100) distanceToCenter) (F32.literal 1 10).

(** [main], up to the two included post-processing chunks, which belong to
    the surrounding renderer. *)
Definition main (gl_PointCoord : vec2) : vec4 :=
  let uv := gl_PointCoord in
  let distanceToCenter := length (vec2_sub_scalar uv (F32.literal 5 10)) in
  let alpha := alpha distanceToCenter in
  Vec4 (F32.literal 1 1) (F32.literal 1 1) (F32.literal 1 1) alpha.

End Shader.

(** ** The JavaScript environment the script runs in *)

Module JS.

(** [Math.random()] is an oracle: the [n]-th call of the page returns
    [random_draws n], a number of the interval [0, 1) (see [unit_draws]).
    [next_object] numbers the [THREE.BufferAttribute] objects, the only
    objects whose identity the script compares or shares: every
    [new THREE.Float32BufferAttribute] takes the next number, so that two
    attributes are the same object iff their numbers agree.  Typed arrays,
    object literals and tweens are values here and take no number; an
    unchanged [next_object] says that no attribute was created, not that
    nothing was allocated. *)
Record World : Type := mkWorld {
  random_draws : nat -> Q;
  random_calls : nat;
  next_object : nat
}.

Definition unit_draws (w : World) : Prop :=
  forall n, (0 <= random_draws w n)%Q /\ (random_draws w n < 1)%Q.

Definition Math_random (w : World) : Q * World :=
  (random_draws w (random_calls w),
   mkWorld (random_draws w) (S (random_calls w)) (next_object w)).

Definition Math_floor (x : Q) : Z := Qfloor x.

Definition new_object (w : World) : nat * World :=
  (next_object w,
   mkWorld (random_draws w) (random_calls w) (S (next_object w))).

(** [new Float32Array(n)]: [n] zeros (the array itself carries no identity,
    see [World]). *)
Definition new_Float32Array (n : nat) : list float32 := replicate n F32.zero.

(** [a[i]] on a typed array: [None] is [undefined]. *)
Definition get (a : list float32) (i : nat) : option float32 := a !! i.

(** [a[i] = v] on a typed array: [undefined] is converted to NaN, a write
    past the end is dropped. *)
Definition set (a : list float32) (i : nat) (v : option float32) : list float32 :=
  <[i := default F32.NaN v]> a.

(** [l[i]] on an ordinary array with a number that may be negative. *)
Definition index_Z {A : Type} (l : list A) (i : Z) : option A :=
  if (i <? 0)%Z then None else l !! Z.to_nat i.

End JS.

(** ** THREE.BufferAttribute *)

Module Three.

Record BufferAttribute : Type := mkBufferAttribute {
  attr_id : nat;
  array : list float32;
  itemSize : nat;
  count : nat
}.

(** [new THREE.Float32BufferAttribute(array, itemSize)]; the constructor
    sets [count = array.length / itemSize]. *)
Definition Float32BufferAttribute (id : nat) (arr : list float32) (size : nat)
  : BufferAttribute :=
  mkBufferAttribute id arr size (length arr / size).

(** What the loader hands over for a mesh: three floats per point. *)
Definition well_formed (p : BufferAttribute) : Prop :=
  itemSize p = 3 /\ length (array p) = count p * 3.

(** The [k]-th point of an attribute. *)
Definition point (p : BufferAttribute) (k : nat)
  : option float32 * option float32 * option float32 :=
  (array p !! (k * 3 + 0), array p !! (k * 3 + 1), array p !! (k * 3 + 2)).

End Three.

(** ** The tween engine (gsap)

    gsap is a dependency of the script, not part of it.  What the script
    relies on is modelled here: a tween is registered on the root timeline at
    the engine's current time, [fromTo] renders the start value at once, a
    new tween does not cancel an older tween of the same property (gsap 3
    has [overwrite: false] unless told otherwise), and on every tick the
    engine renders its live tweens in the order they were created, each
    writing its value to the target, and then drops the completed ones.  All
    tweens of this script target [uProgress.value], so a tween does not name
    its target. *)

Module Gsap.

Inductive Ease : Type := linear.

Record Tween : Type := mkTween {
  start : Q;
  from_value : Q;
  to_value : Q;
  duration : Q;
  ease : Ease
}.

Record Engine : Type := mkEngine {
  time : Q;
  tweens : list Tween
}.

Definition apply_ease (e : Ease) (x : Q) : Q :=
  match e with linear => x end.

(** Fraction of the tween's duration that has elapsed at [t], in [0, 1]. *)
Definition ratio (tw : Tween) (t : Q) : Q :=
  Qmin 1 (Qmax 0 ((t - start tw) / duration tw)).

Definition value_at (tw : Tween) (t : Q) : Q :=
  from_value tw + (to_value tw - from_value tw) * apply_ease (ease tw) (ratio tw t).

Definition completed (t : Q) (tw : Tween) : bool :=
  Qle_bool (duration tw) (t - start tw).

(** [gsap.fromTo(target, {value: a}, {value: b, duration: d, ease: e})]:
    the new value of the target and the new engine. *)
Definition fromTo (a b d : Q) (e : Ease) (g : Engine) : Q * Engine :=
  (a, mkEngine (time g) (tweens g ++ [mkTween (time g) a b d e])).

(** One tick of the engine's ticker at time [t]. *)
Definition tick (t : Q) (value : Q) (g : Engine) : Q * Engine :=
  (foldl (fun _ tw => value_at tw t) value (tweens g),
   mkEngine t (filter (fun tw => completed t tw = false) (tweens g))).

End Gsap.

(** ** script.js *)

Module Script.

Import Three.

Record Particles : Type := mkParticles {
  index : Z;
  maxCount : nat;
  positions : list BufferAttribute;
  (** [particles.geometry.attributes]; [None] is [undefined]. *)
  position : option BufferAttribute;
  aPositionTarget : option BufferAttribute;
  (** [particles.material.uniforms.uProgress.value] *)
  uProgress : Q;
  (** [particles.points.rotation]: its three equal components. *)
  rotation : Q
}.

(** Lines 107-116: the largest [count]. *)
Definition max_count (positions : list BufferAttribute) : nat :=
  foldl (fun maxCount position =>
           if maxCount <? count position then count position else maxCount)
        0 positions.

(** Lines 126-138: the body of the padding loop for one [i].  The product
    [position.count * Math.random()] is taken exactly; with a draw in
    [0, 1) its floor is below [position.count], as it is in double
    arithmetic. *)
Definition pad_body (originalArray : list float32) (position_count : nat)
    (st : list float32 * JS.World) (i : nat) : list float32 * JS.World :=
  let '(newArray, w) := st in
  let i3 := i * 3 in
  if i3 <? length originalArray then
    let newArray := JS.set newArray (i3 + 0) (JS.get originalArray (i3 + 0)) in
    let newArray := JS.set newArray (i3 + 1) (JS.get originalArray (i3 + 1)) in
    let newArray := JS.set newArray (i3 + 2) (JS.get originalArray (i3 + 2)) in
    (newArray, w)
  else
    let '(rnd, w) := JS.Math_random w in
    let randomIndex :=
      Z.to_nat (JS.Math_floor (inject_Z (Z.of_nat position_count) * rnd)) * 3 in
    let newArray := JS.set newArray (i3 + 0) (JS.get originalArray (randomIndex + 0)) in
    let newArray := JS.set newArray (i3 + 1) (JS.get originalArray (randomIndex + 1)) in
    let newArray := JS.set newArray (i3 + 2) (JS.get originalArray (randomIndex + 2)) in
    (newArray, w).

(** Lines 123-139: the array built for one attribute. *)
Definition pad (maxCount : nat) (position : BufferAttribute) (w : JS.World)
  : list float32 * JS.World :=
  foldl (pad_body (array position) (count position))
        (JS.new_Float32Array (maxCount * 3), w) (seq 0 maxCount).

(** Lines 120-141: one round of the loop over [positions]; the accumulator
    is [particles.positions].  [continue] leaves it as it is. *)
Definition normalize_body (maxCount : nat)
    (st : list BufferAttribute * JS.World) (position : BufferAttribute)
  : list BufferAttribute * JS.World :=
  let '(out, w) := st in
  let originalArray := array position in
  if length originalArray =? maxCount then (out, w)
  else
    let '(newArray, w) := pad maxCount position w in
    let '(id, w) := JS.new_object w in
    (out ++ [Float32BufferAttribute id newArray 3], w).

(** Lines 119-141. *)
Definition normalize (maxCount : nat) (positions : list BufferAttribute)
    (w : JS.World) : list BufferAttribute * JS.World :=
  foldl (normalize_body maxCount) ([], w) positions.

(** Lines 104-184: the [particles] object the load callback builds from the
    position attributes of [gltf.scene.children].  The [aSize] attribute, the
    colours and the scene graph play no part in what follows and are left
    out. *)
Definition build_particles (gltf_positions : list BufferAttribute) (w : JS.World)
  : Particles * JS.World :=
  let index := 0%Z in
  let maxCount := max_count gltf_positions in
  let '(positions, w) := normalize maxCount gltf_positions w in
  (mkParticles index maxCount positions (JS.index_Z positions index) None 0 0, w).

(** Lines 187-201: [particles.morph]. *)
Definition morph (index' : Z) (p : Particles) (g : Gsap.Engine)
  : Particles * Gsap.Engine :=
  let position := JS.index_Z (positions p) (index p) in
  let aPositionTarget := JS.index_Z (positions p) index' in
  let '(uProgress, g) := Gsap.fromTo 0 1 3 Gsap.linear g in
  (mkParticles index' (maxCount p) (positions p) position aPositionTarget uProgress
     (rotation p), g).

(** Line 249: the delay handed to [setInterval], in milliseconds. *)
Definition swap_delay_ms : Z := 4000.

(** Lines 247-248: the index the interval callback morphs to. *)
Definition next_index (p : Particles) : Z :=
  if (index p >=? Z.of_nat (length (positions p)) - 1)%Z then 0%Z
  else (index p + 1)%Z.

(** *** The page: top-level state and its callbacks *)

Record Page : Type := mkPage {
  particles : option Particles;        (* [null] until the asset is loaded *)
  gsap : Gsap.Engine;
  world : JS.World;
  intervals : list Z                    (* delays of the running [setInterval]s *)
}.

Inductive Outcome : Type :=
| Returned (page : Page)
| TypeError (page : Page).             (* property read on [null] *)

(** The state once the top level of the script has run: [particles] is
    [null] (line 96), the load is pending, [swapModels()] has started its
    interval (line 252). *)
Definition script_loaded (w : JS.World) : Page :=
  mkPage None (Gsap.mkEngine 0 []) w [swap_delay_ms].

(** Lines 99-237. *)
Definition on_load (gltf_positions : list BufferAttribute) (page : Page) : Outcome :=
  let '(p, w) := build_particles gltf_positions (world page) in
  Returned (mkPage (Some p) (gsap page) w (intervals page)).

(** A call [particles.morph(j)] from outside (the control panel). *)
Definition call_morph (j : Z) (page : Page) : Outcome :=
  match particles page with
  | None => TypeError page
  | Some p =>
      let '(p, g) := morph j p (gsap page) in
      Returned (mkPage (Some p) g (world page) (intervals page))
  end.

(** Lines 246-249: the interval callback.  [particles.index] is read
    first, whatever [particles] is. *)
Definition swap_callback (page : Page) : Outcome :=
  match particles page with
  | None => TypeError page
  | Some p => call_morph (next_index p) page
  end.

(** Lines 255-273: [tick] at clock reading [elapsedTime]; [particles] is
    only used under [if (particles)]. *)
Definition tick (elapsedTime : Q) (page : Page) : Outcome :=
  match particles page with
  | None => Returned page
  | Some p =>
      Returned (mkPage
        (Some (mkParticles (index p) (maxCount p) (positions p) (position p)
                 (aPositionTarget p) (uProgress p) (elapsedTime * (2 # 100))))
        (gsap page) (world page) (intervals page))
  end.

(** The engine's ticker at time [t]: the tweens write [uProgress.value]. *)
Definition gsap_tick (t : Q) (page : Page) : Outcome :=
  match particles page with
  | None => Returned (mkPage None (snd (Gsap.tick t 0 (gsap page))) (world page) (intervals page))
  | Some p =>
      let '(v, g) := Gsap.tick t (uProgress p) (gsap page) in
      Returned (mkPage
        (Some (mkParticles (index p) (maxCount p) (positions p) (position p)
                 (aPositionTarget p) v (rotation p)))
        g (world page) (intervals page))
  end.

Inductive Event : Type :=
| AssetLoaded (gltf_positions : list BufferAttribute)
| IntervalFired
| MorphCalled (j : Z)
| FrameRequested (elapsedTime : Q)
| TweenTicked (t : Q).

Definition handle (e : Event) (page : Page) : Outcome :=
  match e with
  | AssetLoaded gltf_positions => on_load gltf_positions page
  | IntervalFired => swap_callback page
  | MorphCalled j => call_morph j page
  | FrameRequested elapsedTime => tick elapsedTime page
  | TweenTicked t => gsap_tick t page
  end.

(** The page after an event; an uncaught exception ends the callback and
    leaves the page as it was when the exception was thrown. *)
Definition page_of (o : Outcome) : Page :=
  match o with Returned page => page | TypeError page => page end.

Definition run (events : list Event) (page : Page) : Page :=
  foldl (fun page e => page_of (handle e page)) page events.

(** *** Observations of a page *)

(** [particles.index], when there is a particle set. *)
Definition current_index (page : Page) : option Z :=
  match particles page with Some p => Some (index p) | None => None end.

(** The value of the [uProgress] uniform; 0 before the uniform exists. *)
Definition progress (page : Page) : Q :=
  match particles page with Some p => uProgress p | None => 0 end.

(** The indices the page is at after each of [k] consecutive firings of the
    interval. *)
Definition visited (k : nat) (page : Page) : list (option Z) :=
  (fun m => current_index (run (replicate (S m) IntervalFired) page)) <$> seq 0 k.

(** Clock readings that never go back, from [t0] on. *)
Fixpoint ascending (t0 : Q) (ts : list Q) : Prop :=
  match ts with
  | [] => True
  | t :: ts' => (t0 <= t)%Q /\ ascending t ts'
  end.

(** The events a page can receive: the asset is loaded once, while
    [particles] is still [null]; the control panel that calls [morph] is
    built by the load callback; the engine's clock does not go back. *)
Inductive Admissible : Event -> Page -> Prop :=
| adm_loaded gltf_positions page :
    particles page = None -> Admissible (AssetLoaded gltf_positions) page
| adm_interval page : Admissible IntervalFired page
| adm_morph j page : particles page <> None -> Admissible (MorphCalled j) page
| adm_frame elapsedTime page : Admissible (FrameRequested elapsedTime) page
| adm_tick t page : (Gsap.time (gsap page) <= t)%Q -> Admissible (TweenTicked t) page.

(** The pages the script can be in. *)
Inductive Reachable (w : JS.World) : Page -> Prop :=
| reach_loaded : Reachable w (script_loaded w)
| reach_event page e :
    Reachable w page -> Admissible e page -> Reachable w (page_of (handle e page)).

(** *** The invariant of the tween engine as the script uses it *)

(** The only tweens the script creates: line 193. *)
Definition morph_tween (tw : Gsap.Tween) : Prop :=
  Gsap.from_value tw = 0%Q /\ Gsap.to_value tw = 1%Q /\
  Gsap.duration tw = 3%Q /\ Gsap.ease tw = Gsap.linear.

(** The linear law of a tween started at [t0], read at [t]. *)
Definition linear_law (t0 t : Q) : Q := Qmin 1 (Qmax 0 ((t - t0) / 3)).

(** Every live tween is a tween of [morph] started in the past; there is
    none before the particle set exists; the newest tween is the last one,
    and progress has the value that tween had at the last tick. *)
Definition engine_invariant (page : Page) : Prop :=
  Forall (fun tw => morph_tween tw /\ (Gsap.start tw <= Gsap.time (gsap page))%Q)
         (Gsap.tweens (gsap page)) /\
  (particles page = None -> Gsap.tweens (gsap page) = []) /\
  (forall older tw,
     Gsap.tweens (gsap page) = older ++ [tw] ->
     Forall (fun x => (Gsap.start x <= Gsap.start tw)%Q) older /\
     (progress page == Gsap.value_at tw (Gsap.time (gsap page)))%Q).

End Script.

(** ** Concrete inputs *)

Module Examples.

Import Three Script.

(** An oracle that always answers 1/2; identities below 100 are taken by
    the objects of the loaded asset. *)
Definition draws_half : JS.World := JS.mkWorld (fun _ => 1 # 2) 0 100.

(** A position attribute as the loader delivers it: three floats per point. *)
Definition mesh (id : nat) (coords : list Z) : BufferAttribute :=
  mkBufferAttribute id (map F32.of_Z coords) 3 (length coords / 3).

Definition no_points : BufferAttribute := mesh 1 [].
Definition one_point : BufferAttribute := mesh 2 [1; 2; 3]%Z.
Definition two_points : BufferAttribute := mesh 3 [21; 22; 23; 24; 25; 26]%Z.
Definition three_points : BufferAttribute :=
  mesh 4 [10; 11; 12; 13; 14; 15; 16; 17; 18]%Z.
Definition four_points : BufferAttribute :=
  mesh 5 [30; 31; 32; 33; 34; 35; 36; 37; 38; 39; 40; 41]%Z.

(** Four meshes with 2, 4, 1 and 3 points. *)
Definition four_meshes : list BufferAttribute :=
  [two_points; four_points; one_point; three_points].

(** The page once [four_meshes] has been loaded. *)
Definition loaded_page : Page :=
  page_of (on_load four_meshes (script_loaded draws_half)).

End Examples.

(** ** The window: sizes and the resize handler (script.js, lines 34-60)

    Only what the handler computes itself is modelled: the [sizes] object
    and the value it writes to the [uResolution] uniform.  The camera and the
    renderer receive these numbers and belong to three.js.  Window
    measurements are rationals. *)

Module Viewport.

Record Window : Type := mkWindow {
  innerWidth : Q;
  innerHeight : Q;
  devicePixelRatio : Q
}.

Record Sizes : Type := mkSizes {
  width : Q;
  height : Q;
  pixelRatio : Q
}.

(** Lines 34-38 and 42-44: [sizes] as read off the window. *)
Definition measure (win : Window) : Sizes :=
  mkSizes (innerWidth win) (innerHeight win) (Qmin (devicePixelRatio win) 2).

(** Lines 48-51 and 168-171: the two components given to [uResolution]. *)
Definition resolution (s : Sizes) : Q * Q :=
  ((width s * pixelRatio s)%Q, (height s * pixelRatio s)%Q).

(** [sizes] and the value of [uResolution]; the uniform does not exist
    ([None]) before the load callback has built the material. *)
Record View : Type := mkView {
  sizes : Sizes;
  uResolution : option (Q * Q)
}.

(** Lines 34-38: the view when the top level of the script has run. *)
Definition view_loaded (win : Window) : View := mkView (measure win) None.

(** Lines 162-176: the load callback creates the uniform from [sizes] as
    they are at that moment. *)
Definition on_material (v : View) : View :=
  mkView (sizes v) (Some (resolution (sizes v))).

(** Lines 40-51: the resize handler; [particles] is tested before the
    uniform is written. *)
Definition on_resize (win : Window) (page : Script.Page) (v : View) : View :=
  let s := measure win in
  match Script.particles page with
  | Some _ => mkView s (Some (resolution s))
  | None => mkView s (uResolution v)
  end.

End Viewport.

(** ** Kinds of events *)

Module Trace.

Import Script.

(** The asset load. *)
Definition is_load (e : Event) : bool :=
  match e with AssetLoaded _ => true | _ => false end.

(** An event that calls [particles.morph]: the interval or the panel. *)
Definition is_morph (e : Event) : bool :=
  match e with IntervalFired | MorphCalled _ => true | _ => false end.

End Trace.

(** * Properties *)

Import Three Script.

(** ** The padding loop *)

Lemma random_index_bound (c : nat) (r : Q) :
  (0 <= r)%Q -> (r < 1)%Q -> 0 < c ->
  Z.to_nat (JS.Math_floor (inject_Z (Z.of_nat c) * r)) < c.
Proof.
  intros H0 H1 Hc. unfold JS.Math_floor.
  assert (Hlt : (Qfloor (inject_Z (Z.of_nat c) * r) < Z.of_nat c)%Z).
  { rewrite Zlt_Qlt.
    apply Qle_lt_trans with (inject_Z (Z.of_nat c) * r)%Q; [apply Qfloor_le|].
    assert (Hpos : (0 < inject_Z (Z.of_nat c))%Q).
    { rewrite <- (Zlt_Qlt 0). lia. }
    apply Qlt_le_trans with (inject_Z (Z.of_nat c) * 1)%Q.
    - apply Qmult_lt_l; assumption.
    - rewrite Qmult_1_r. apply Qle_refl. }
  lia.
Qed.

Lemma set_length (a : list float32) (i : nat) (v : option float32) :
  length (JS.set a i v) = length a.
Proof. apply length_insert. Qed.

Lemma set_get_eq (a : list float32) (i : nat) (v : option float32) :
  i < length a -> JS.set a i v !! i = Some (default F32.NaN v).
Proof. intros H. by apply list_lookup_insert_eq. Qed.

Lemma set_get_ne (a : list float32) (i j : nat) (v : option float32) :
  i ≠ j -> JS.set a i v !! j = a !! j.
Proof. intros H. by apply list_lookup_insert_ne. Qed.

(** Three consecutive writes at [i3], [i3 + 1], [i3 + 2]. *)
Lemma set3_spec (a : list float32) (i3 : nat) (v0 v1 v2 : option float32) :
  i3 + 2 < length a ->
  let a' := JS.set (JS.set (JS.set a (i3 + 0) v0) (i3 + 1) v1) (i3 + 2) v2 in
  length a' = length a /\
  a' !! (i3 + 0) = Some (default F32.NaN v0) /\
  a' !! (i3 + 1) = Some (default F32.NaN v1) /\
  a' !! (i3 + 2) = Some (default F32.NaN v2) /\
  (forall x, x < i3 \/ i3 + 3 <= x -> a' !! x = a !! x).
Proof.
  intros Hlen a'. subst a'. repeat split.
  - by rewrite !set_length.
  - rewrite !set_get_ne by lia. apply set_get_eq. lia.
  - rewrite set_get_ne by lia. apply set_get_eq. rewrite set_length. lia.
  - apply set_get_eq. rewrite !set_length. lia.
  - intros x Hx. rewrite !set_get_ne by lia. done.
Qed.

(** The index of the original point that round [i] of the loop reads. *)
Lemma pad_body_spec (orig : list float32) (c : nat) (a : list float32)
    (w : JS.World) (i : nat) :
  i * 3 + 2 < length a ->
  exists j,
    (if i * 3 <? length orig then j = i
     else j = Z.to_nat (JS.Math_floor
                (inject_Z (Z.of_nat c) * JS.random_draws w (JS.random_calls w)))) /\
    let '(a', w') := pad_body orig c (a, w) i in
    length a' = length a /\
    JS.random_draws w' = JS.random_draws w /\
    JS.next_object w' = JS.next_object w /\
    (forall d, d < 3 -> a' !! (i * 3 + d) = Some (default F32.NaN (orig !! (j * 3 + d)))) /\
    (forall x, x < i * 3 \/ i * 3 + 3 <= x -> a' !! x = a !! x).
Proof.
  intros Hlen. unfold pad_body.
  destruct (i * 3 <? length orig) eqn:Hbr.
  - exists i. split; [done|].
    destruct (set3_spec a (i * 3) (JS.get orig (i * 3 + 0)) (JS.get orig (i * 3 + 1))
                (JS.get orig (i * 3 + 2)) Hlen) as (Hl & H0 & H1 & H2 & Hrest).
    repeat split; try done.
    intros d Hd. destruct d as [|[|[|d]]]; try lia; done.
  - eexists. split; [reflexivity|]. simpl.
    set (j := Z.to_nat _).
    destruct (set3_spec a (i * 3) (JS.get orig (j * 3 + 0)) (JS.get orig (j * 3 + 1))
                (JS.get orig (j * 3 + 2)) Hlen) as (Hl & H0 & H1 & H2 & Hrest).
    repeat split; try done.
    intros d Hd. destruct d as [|[|[|d]]]; try lia; done.
Qed.

(** State of the loop after its first [m] rounds: the length of the new
    array is fixed, the oracle and the allocator are untouched, and every
    point written so far is a point of the original array (or NaN where the
    original has nothing at the index read). *)
Lemma pad_loop_spec (orig : list float32) (c n : nat) (w : JS.World) (m : nat) :
  m <= n ->
  let '(a, w') := foldl (pad_body orig c) (JS.new_Float32Array (n * 3), w) (seq 0 m) in
  length a = n * 3 /\
  JS.random_draws w' = JS.random_draws w /\
  JS.next_object w' = JS.next_object w /\
  forall k, k < m ->
    exists j,
      (if k * 3 <? length orig then j = k
       else exists call,
           j = Z.to_nat (JS.Math_floor (inject_Z (Z.of_nat c) * JS.random_draws w call))) /\
      forall d, d < 3 -> a !! (k * 3 + d) = Some (default F32.NaN (orig !! (j * 3 + d))).
Proof.
  induction m as [|m IH]; intros Hm.
  - simpl. unfold JS.new_Float32Array. rewrite length_replicate.
    repeat split; try done. intros k Hk. lia.
  - rewrite seq_S, foldl_snoc. simpl.
    destruct (foldl (pad_body orig c) (JS.new_Float32Array (n * 3), w) (seq 0 m))
      as [a w1] eqn:Hloop.
    destruct IH as (Hlen & Hdraws & Hobj & Hpts); [lia|].
    destruct (pad_body_spec orig c a w1 m) as (j & Hj & Hbody); [lia|].
    destruct (pad_body orig c (a, w1) m) as [a' w'].
    destruct Hbody as (Hlen' & Hdraws' & Hobj' & Hnew & Hold).
    repeat split; try congruence.
    intros k Hk. destruct (decide (k = m)) as [->|Hne].
    + exists j. split; [|done].
      destruct (m * 3 <? length orig); [done|].
      exists (JS.random_calls w1). by rewrite <- Hdraws.
    + destruct (Hpts k) as (j' & Hj' & Hk'); [lia|].
      exists j'. split; [done|].
      intros d Hd. rewrite Hold by lia. by apply Hk'.
Qed.

Lemma pad_spec (n : nat) (p : BufferAttribute) (w : JS.World) :
  let '(a, w') := pad n p w in
  length a = n * 3 /\
  JS.random_draws w' = JS.random_draws w /\
  JS.next_object w' = JS.next_object w /\
  forall k, k < n ->
    exists j,
      (if k * 3 <? length (array p) then j = k
       else exists call,
           j = Z.to_nat (JS.Math_floor
                 (inject_Z (Z.of_nat (count p)) * JS.random_draws w call))) /\
      forall d, d < 3 ->
        a !! (k * 3 + d) = Some (default F32.NaN (array p !! (j * 3 + d))).
Proof. unfold pad. by apply pad_loop_spec. Qed.

Lemma point_eq_intro (a b : BufferAttribute) (k j : nat) :
  (forall d, d < 3 -> array a !! (k * 3 + d) = array b !! (j * 3 + d)) ->
  point a k = point b j.
Proof.
  intros H. unfold point. rewrite !H by lia. done.
Qed.

(** A point read inside a well-formed attribute is there. *)
Lemma in_range_defined (p : BufferAttribute) (j d : nat) :
  well_formed p -> j < count p -> d < 3 ->
  Some (default F32.NaN (array p !! (j * 3 + d))) = array p !! (j * 3 + d).
Proof.
  intros [_ Hlen] Hj Hd.
  destruct (lookup_lt_is_Some_2 (array p) (j * 3 + d)) as [x Hx]; [lia|].
  by rewrite Hx.
Qed.

(** Padding fidelity for one attribute with at least one point: the first
    [count] points are the original ones in order, every later point is an
    original point. *)
Lemma pad_fidelity (n : nat) (p : BufferAttribute) (w : JS.World) (id : nat) :
  well_formed p -> JS.unit_draws w -> 0 < count p ->
  let out := Float32BufferAttribute id (fst (pad n p w)) 3 in
  count out = n /\
  length (array out) = n * 3 /\
  (forall k, k < count p -> k < n -> point out k = point p k) /\
  (forall k, count p <= k < n -> exists j, j < count p /\ point out k = point p j).
Proof.
  intros Hwf Hdraws Hc out. subst out.
  pose proof (pad_spec n p w) as Hspec.
  destruct (pad n p w) as [a w'].
  destruct Hspec as (Hlen & _ & _ & Hpts).
  unfold Float32BufferAttribute. cbn [fst count array].
  destruct Hwf as [Hsize Horig]. repeat split.
  - rewrite Hlen. apply Nat.div_mul. lia.
  - done.
  - intros k Hk Hkn. destruct (Hpts k Hkn) as (j & Hj & Hread).
    assert (Hbr : (k * 3 <? length (array p)) = true) by (apply Nat.ltb_lt; lia).
    rewrite Hbr in Hj. subst j.
    apply point_eq_intro. cbn [array]. intros d Hd.
    rewrite Hread by done. by apply in_range_defined.
  - intros k [Hk Hkn]. destruct (Hpts k Hkn) as (j & Hj & Hread).
    assert (Hbr : (k * 3 <? length (array p)) = false) by (apply Nat.ltb_ge; lia).
    rewrite Hbr in Hj. destruct Hj as (call & ->).
    destruct (Hdraws call) as [H0 H1].
    pose proof (random_index_bound (count p) _ H0 H1 Hc) as Hj.
    eexists. split; [exact Hj|].
    apply point_eq_intro. cbn [array]. intros d Hd.
    rewrite Hread by done. by apply in_range_defined.
Qed.

(** Every slot of the padded array, by its flat index. *)
Lemma pad_flat (n : nat) (p : BufferAttribute) (w : JS.World) (x : nat) :
  x < n * 3 ->
  exists j,
    (if x `div` 3 * 3 <? length (array p) then j = x `div` 3
     else exists call,
         j = Z.to_nat (JS.Math_floor
               (inject_Z (Z.of_nat (count p)) * JS.random_draws w call))) /\
    fst (pad n p w) !! x = Some (default F32.NaN (array p !! (j * 3 + x `mod` 3))).
Proof.
  intros Hx. pose proof (pad_spec n p w) as Hspec.
  destruct (pad n p w) as [a w']. destruct Hspec as (_ & _ & _ & Hpts).
  pose proof (Nat.div_mod_eq x 3) as Hdm.
  pose proof (Nat.mod_upper_bound x 3 ltac:(lia)) as Hmod.
  destruct (Hpts (x `div` 3)) as (j & Hj & Hread); [lia|].
  exists j. split; [done|]. cbn [fst].
  rewrite <- (Hread (x `mod` 3)) by done. f_equal. lia.
Qed.

(** An attribute that already has [n] points is rebuilt slot by slot with its
    own values. *)
Lemma pad_full (n : nat) (p : BufferAttribute) (w : JS.World) :
  well_formed p -> count p = n -> fst (pad n p w) = array p.
Proof.
  intros [Hsize Hlen] Hn.
  pose proof (pad_spec n p w) as Hspec.
  apply list_eq. intros x.
  destruct (decide (x < n * 3)) as [Hx|Hx].
  - destruct (pad_flat n p w x Hx) as (j & Hj & Hread).
    pose proof (Nat.div_mod_eq x 3) as Hdm.
    pose proof (Nat.mod_upper_bound x 3 ltac:(lia)) as Hmod.
    assert (Hbr : (x `div` 3 * 3 <? length (array p)) = true) by (apply Nat.ltb_lt; lia).
    rewrite Hbr in Hj. subst j. rewrite Hread.
    replace (x `div` 3 * 3 + x `mod` 3) with x by lia.
    destruct (lookup_lt_is_Some_2 (array p) x) as [v Hv]; [lia|]. by rewrite Hv.
  - destruct (pad n p w) as [a w']. destruct Hspec as (Ha & _).
    cbn [fst]. rewrite !(proj2 (lookup_ge_None _ _)) by lia. done.
Qed.

(** An attribute without points is padded with NaN. *)
Lemma pad_empty (n : nat) (p : BufferAttribute) (w : JS.World) :
  array p = [] -> fst (pad n p w) = replicate (n * 3) F32.NaN.
Proof.
  intros Hnil.
  pose proof (pad_spec n p w) as Hspec.
  apply list_eq. intros x.
  destruct (decide (x < n * 3)) as [Hx|Hx].
  - destruct (pad_flat n p w x Hx) as (j & _ & Hread).
    rewrite Hread, Hnil, lookup_replicate_2 by done. done.
  - destruct (pad n p w) as [a w']. destruct Hspec as (Ha & _).
    cbn [fst]. rewrite !(proj2 (lookup_ge_None _ _)); [done| |lia].
    rewrite length_replicate. lia.
Qed.

(** ** The loop over the attributes *)

Lemma normalize_body_acc (n : nat) (out : list BufferAttribute) (w : JS.World)
    (p : BufferAttribute) :
  normalize_body n (out, w) p =
  (out ++ fst (normalize_body n ([], w) p), snd (normalize_body n ([], w) p)).
Proof.
  unfold normalize_body.
  destruct (length (array p) =? n).
  - cbn. by rewrite app_nil_r.
  - destruct (pad n p w) as [a w1]. destruct (JS.new_object w1) as [id w2]. done.
Qed.

Lemma normalize_acc (n : nat) (l : list BufferAttribute) :
  forall (out : list BufferAttribute) (w : JS.World),
    foldl (normalize_body n) (out, w) l =
    (out ++ fst (normalize n l w), snd (normalize n l w)).
Proof.
  unfold normalize. induction l as [|p l IH]; intros out w.
  - cbn. by rewrite app_nil_r.
  - cbn [foldl]. rewrite (normalize_body_acc n out w p).
    destruct (normalize_body n ([], w) p) as [o1 w1]. cbn [fst snd].
    rewrite (IH (out ++ o1) w1), (IH o1 w1). cbn [fst snd].
    by rewrite app_assoc.
Qed.

Lemma normalize_app (n : nat) (l1 l2 : list BufferAttribute) (w : JS.World) :
  normalize n (l1 ++ l2) w =
  (fst (normalize n l1 w) ++ fst (normalize n l2 (snd (normalize n l1 w))),
   snd (normalize n l2 (snd (normalize n l1 w)))).
Proof.
  unfold normalize at 1. rewrite foldl_app.
  fold (normalize n l1 w). destruct (normalize n l1 w) as [o1 w1].
  apply normalize_acc.
Qed.

Lemma normalize_cons (n : nat) (p : BufferAttribute) (l : list BufferAttribute)
    (w : JS.World) :
  normalize n (p :: l) w =
  (fst (normalize_body n ([], w) p) ++ fst (normalize n l (snd (normalize_body n ([], w) p))),
   snd (normalize n l (snd (normalize_body n ([], w) p)))).
Proof.
  unfold normalize at 1. cbn [foldl].
  destruct (normalize_body n ([], w) p) as [o1 w1]. apply normalize_acc.
Qed.

(** The world after one round: same oracle, allocator not moved back. *)
Lemma normalize_body_world (n : nat) (w : JS.World) (p : BufferAttribute) :
  JS.random_draws (snd (normalize_body n ([], w) p)) = JS.random_draws w /\
  JS.next_object w <= JS.next_object (snd (normalize_body n ([], w) p)).
Proof.
  unfold normalize_body.
  destruct (length (array p) =? n); [done|].
  pose proof (pad_spec n p w) as Hspec.
  destruct (pad n p w) as [a w1]. destruct Hspec as (_ & Hd & Ho & _).
  cbn. split; [done|lia].
Qed.

Lemma normalize_world (n : nat) (l : list BufferAttribute) :
  forall w : JS.World,
    JS.random_draws (snd (normalize n l w)) = JS.random_draws w /\
    JS.next_object w <= JS.next_object (snd (normalize n l w)).
Proof.
  induction l as [|p l IH]; intros w.
  - done.
  - rewrite normalize_cons. cbn [snd].
    destruct (normalize_body_world n w p) as [Hd Ho].
    destruct (IH (snd (normalize_body n ([], w) p))) as [Hd' Ho'].
    split; [congruence|lia].
Qed.

Lemma unit_draws_same (w w' : JS.World) :
  JS.random_draws w' = JS.random_draws w -> JS.unit_draws w -> JS.unit_draws w'.
Proof. unfold JS.unit_draws. intros -> H. done. Qed.

(** What the loop appends for an attribute it does not skip. *)
Lemma normalize_emits (n : nat) (before after : list BufferAttribute)
    (p : BufferAttribute) (w : JS.World) :
  length (array p) ≠ n ->
  exists (id : nat) (wb : JS.World),
    JS.random_draws wb = JS.random_draws w /\
    JS.next_object w <= id /\
    fst (normalize n (before ++ p :: after) w) !! length (fst (normalize n before w))
    = Some (Float32BufferAttribute id (fst (pad n p wb)) 3).
Proof.
  intros Hne. rewrite normalize_app. cbn [fst].
  destruct (normalize_world n before w) as [Hd Ho].
  set (wb := snd (normalize n before w)) in *.
  rewrite normalize_cons. cbn [fst].
  unfold normalize_body at 1.
  apply Nat.eqb_neq in Hne. rewrite Hne.
  pose proof (pad_spec n p wb) as Hspec.
  destruct (pad n p wb) as [a w1] eqn:Hpad. destruct Hspec as (_ & _ & Hobj & _).
  cbn [JS.new_object fst].
  exists (JS.next_object w1), wb. rewrite Hpad. cbn [fst].
  split; [done|]. split; [lia|].
  rewrite lookup_app_r by lia. rewrite Nat.sub_diag. done.
Qed.

(** Every attribute the loop emits has [n] points, and it emits at most one
    per input. *)
Lemma normalize_body_counts (n : nat) (p : BufferAttribute) (w : JS.World) :
  Forall (fun out => count out = n /\ length (array out) = n * 3 /\ itemSize out = 3)
         (fst (normalize_body n ([], w) p)) /\
  length (fst (normalize_body n ([], w) p)) <= 1.
Proof.
  unfold normalize_body.
  destruct (length (array p) =? n).
  - cbn. split; [constructor|lia].
  - pose proof (pad_spec n p w) as Hspec.
    destruct (pad n p w) as [a w1]. destruct Hspec as (Ha & _).
    cbn [JS.new_object fst length app]. split; [|lia].
    constructor; [|constructor].
    unfold Float32BufferAttribute. cbn [count array itemSize].
    rewrite Ha. split; [apply Nat.div_mul; lia | done].
Qed.

Lemma normalize_counts (n : nat) (l : list BufferAttribute) :
  forall w : JS.World,
    Forall (fun out => count out = n /\ length (array out) = n * 3 /\ itemSize out = 3)
           (fst (normalize n l w)) /\
    length (fst (normalize n l w)) <= length l.
Proof.
  induction l as [|p l IH]; intros w.
  - split; [constructor|done].
  - rewrite normalize_cons. cbn [fst].
    destruct (IH (snd (normalize_body n ([], w) p))) as [Hall Hlen].
    destruct (normalize_body_counts n p w) as [Hall1 Hlen1].
    rewrite Forall_app, length_app. cbn [length]. split; [done|lia].
Qed.

Lemma build_particles_positions (gltf : list BufferAttribute) (w : JS.World) :
  positions (fst (build_particles gltf w)) = fst (normalize (max_count gltf) gltf w) /\
  maxCount (fst (build_particles gltf w)) = max_count gltf /\
  index (fst (build_particles gltf w)) = 0%Z /\
  uProgress (fst (build_particles gltf w)) = 0%Q.
Proof.
  unfold build_particles.
  destruct (normalize (max_count gltf) gltf w) as [ps w']. done.
Qed.

(** When the guard of line 122 never fires there is one output per input. *)
Lemma normalize_all_emitted (n : nat) (l : list BufferAttribute) :
  forall w : JS.World,
    Forall (fun p => length (array p) ≠ n) l ->
    length (fst (normalize n l w)) = length l.
Proof.
  induction l as [|p l IH]; intros w Hall.
  - done.
  - inversion Hall as [|? ? Hp Hl]; subst.
    rewrite normalize_cons. cbn [fst]. rewrite length_app, IH by done.
    unfold normalize_body. apply Nat.eqb_neq in Hp. rewrite Hp.
    destruct (pad n p w) as [a w1]. done.
Qed.

(** An attribute that already has [maxCount] points (and at least one) is
    not skipped: the loop pushes a newly allocated attribute with the same
    values. *)
Lemma full_variant_rebuilt (before after : list BufferAttribute)
    (p : BufferAttribute) (w : JS.World) :
  well_formed p ->
  0 < count p ->
  count p = max_count (before ++ p :: after) ->
  exists out,
    positions (fst (build_particles (before ++ p :: after) w))
      !! length (fst (normalize (max_count (before ++ p :: after)) before w)) = Some out /\
    array out = array p /\
    JS.next_object w <= attr_id out.
Proof.
  intros Hwf Hpos Hfull.
  destruct (build_particles_positions (before ++ p :: after) w) as (-> & _).
  destruct (normalize_emits (max_count (before ++ p :: after)) before after p w)
    as (id & wb & _ & Hid & Hout).
  { destruct Hwf as [_ Hlen]. lia. }
  eexists. split; [exact Hout|]. cbn [array attr_id Float32BufferAttribute].
  split; [by apply pad_full|done].
Qed.

Lemma draws_half_unit : JS.unit_draws Examples.draws_half.
Proof. intros n. split; cbn; [discriminate | reflexivity]. Qed.

(** ** C1-C4: the position normalizer *)

(** C1 (the code departs from the claim).  The claim: N input variants give
    exactly N output variants, each of [maxCount] points.  The guard of line
    122 compares the length of the float array (three entries per point)
    with [maxCount] (a number of points) and, when they agree, [continue]s
    without pushing anything.  With a one-point and a three-point mesh,
    [maxCount] is 3, the first mesh has an array of length 3, and
    [particles.positions] ends up with a single entry: the rebuilt
    three-point mesh. *)
Theorem C1_variant_dropped :
  max_count [Examples.one_point; Examples.three_points] = 3 /\
  length [Examples.one_point; Examples.three_points] = 2 /\
  positions (fst (build_particles [Examples.one_point; Examples.three_points]
                    Examples.draws_half))
  = [Float32BufferAttribute 100 (array Examples.three_points) 3].
Proof. vm_compute. done. Qed.

(** C2 (the code departs from the claim).  The claim: a variant that already
    has [maxCount] points is passed through, the same object, no copy.  The
    guard of line 122 does not recognise such a variant (its array has
    [3 * maxCount] entries), so the loop allocates a new array, copies every
    value and wraps it in a new attribute: same contents, another object. *)
Theorem C2_full_variant_copied :
  count Examples.two_points = max_count [Examples.two_points] /\
  exists out,
    positions (fst (build_particles [Examples.two_points] Examples.draws_half)) = [out] /\
    array out = array Examples.two_points /\
    attr_id out ≠ attr_id Examples.two_points /\
    out ≠ Examples.two_points.
Proof.
  split; [reflexivity|]. eexists. split; [vm_compute; reflexivity|].
  repeat split; cbn; discriminate.
Qed.

(** C3, as stated, fails for a variant without points: beside a two-point
    mesh it is padded to two points whose coordinates are all NaN, and no
    index of [0, 0) can account for them. *)
Lemma C3_zero_points_counterexample :
  count Examples.no_points < max_count [Examples.no_points; Examples.two_points] /\
  exists out,
    positions (fst (build_particles [Examples.no_points; Examples.two_points]
                      Examples.draws_half)) !! 0 = Some out /\
    point out 0 = (Some F32.NaN, Some F32.NaN, Some F32.NaN) /\
    ~ (forall k,
         count Examples.no_points <= k < max_count [Examples.no_points; Examples.two_points] ->
         exists j, j < count Examples.no_points /\ point out k = point Examples.no_points j).
Proof.
  split; [vm_compute; lia|].
  eexists. split; [vm_compute; reflexivity|]. split; [reflexivity|].
  intros H. destruct (H 0) as (j & Hj & _); [vm_compute; lia|].
  vm_compute in Hj. lia.
Qed.

(** C3 (amended).  For every input variant with [0 < c_i < maxCount] that
    the loop pads (the length of its array differs from [maxCount]), the
    attribute pushed for it has [maxCount] points, its first [c_i] points are
    the original points in the original order, and each of the remaining
    [maxCount - c_i] points is the original point at some index of
    [0, c_i). *)
Theorem C3_padding_fidelity (before after : list BufferAttribute)
    (p : BufferAttribute) (w : JS.World) :
  well_formed p ->
  JS.unit_draws w ->
  0 < count p < max_count (before ++ p :: after) ->
  length (array p) ≠ max_count (before ++ p :: after) ->
  exists out,
    positions (fst (build_particles (before ++ p :: after) w))
      !! length (fst (normalize (max_count (before ++ p :: after)) before w)) = Some out /\
    count out = max_count (before ++ p :: after) /\
    (forall k, k < count p -> point out k = point p k) /\
    (forall k, count p <= k < max_count (before ++ p :: after) ->
       exists j, j < count p /\ point out k = point p j).
Proof.
  intros Hwf Hdraws [Hpos Hlt] Hne.
  destruct (build_particles_positions (before ++ p :: after) w) as (-> & _).
  destruct (normalize_emits _ before after p w Hne) as (id & wb & Hd & _ & Hout).
  eexists. split; [exact Hout|].
  destruct (pad_fidelity (max_count (before ++ p :: after)) p wb id Hwf
              (unit_draws_same _ _ Hd Hdraws) Hpos) as (Hc & _ & Hfirst & Hrest).
  split; [exact Hc|]. split; [|exact Hrest].
  intros k Hk. apply Hfirst; lia.
Qed.

Lemma C3_padding_fidelity_witness :
  exists out,
    positions (fst (build_particles ([] ++ Examples.two_points :: [Examples.three_points])
                      Examples.draws_half))
      !! length (fst (normalize
                        (max_count ([] ++ Examples.two_points :: [Examples.three_points]))
                        [] Examples.draws_half)) = Some out /\
    count out = max_count ([] ++ Examples.two_points :: [Examples.three_points]) /\
    (forall k, k < count Examples.two_points -> point out k = point Examples.two_points k) /\
    (forall k,
       count Examples.two_points <= k
         < max_count ([] ++ Examples.two_points :: [Examples.three_points]) ->
       exists j, j < count Examples.two_points /\ point out k = point Examples.two_points j).
Proof.
  apply (C3_padding_fidelity [] [Examples.three_points] Examples.two_points
           Examples.draws_half).
  - split; reflexivity.
  - exact draws_half_unit.
  - vm_compute. lia.
  - vm_compute. lia.
Defined.

(** C4, as stated, fails: there is no [NoGeometryError] in the script.  With
    no mesh at all the load callback returns and the particle set exists,
    with no position attribute; with a mesh without points beside a two-point
    mesh it returns as well. *)
Lemma C4_no_error_counterexample :
  (exists page p,
     on_load [] (script_loaded Examples.draws_half) = Returned page /\
     particles page = Some p /\ positions p = [] /\ maxCount p = 0) /\
  (exists page p,
     on_load [Examples.no_points; Examples.two_points]
       (script_loaded Examples.draws_half) = Returned page /\
     particles page = Some p /\ length (positions p) = 2).
Proof.
  split; eexists; eexists; (split; [vm_compute; reflexivity|]); repeat split.
Qed.

(** C4 (amended).  The load callback has no failure path: for every set of
    input variants it returns and the particle set is built, with
    [maxCount] the largest count (0 if there is none).  For the empty set
    [positions] is empty and the position attribute is undefined.  A variant
    whose array is empty, in a set with [maxCount > 0], is pushed as
    [maxCount] points whose coordinates are all NaN. *)
Theorem C4_load_never_fails (gltf : list BufferAttribute) (page : Page) :
  exists p w',
    on_load gltf page = Returned (mkPage (Some p) (gsap page) w' (intervals page)) /\
    maxCount p = max_count gltf /\
    (gltf = [] -> maxCount p = 0 /\ positions p = [] /\ position p = None) /\
    (forall before q after,
       gltf = before ++ q :: after -> array q = [] -> 0 < max_count gltf ->
       exists out,
         positions p !! length (fst (normalize (max_count gltf) before (world page)))
           = Some out /\
         count out = max_count gltf /\
         array out = replicate (max_count gltf * 3) F32.NaN).
Proof.
  unfold on_load.
  pose proof (build_particles_positions gltf (world page)) as (Hpos & Hmax & _).
  destruct (build_particles gltf (world page)) as [p w'] eqn:Hb.
  exists p, w'. cbn [fst] in *. split; [done|]. split; [done|]. split.
  - intros ->. unfold build_particles in Hb. cbn in Hb. by inversion Hb.
  - intros before q after -> Hq Hn. rewrite Hpos.
    destruct (normalize_emits (max_count (before ++ q :: after)) before after q
                (world page)) as (id & wb & _ & _ & Hout).
    { rewrite Hq. cbn. lia. }
    eexists. split; [exact Hout|].
    unfold Float32BufferAttribute. cbn [count array].
    rewrite (pad_empty _ q wb Hq), length_replicate.
    split; [apply Nat.div_mul; lia | done].
Qed.

Lemma C4_load_never_fails_witness :
  exists p w',
    on_load [Examples.no_points; Examples.two_points] (script_loaded Examples.draws_half)
    = Returned (mkPage (Some p) (gsap (script_loaded Examples.draws_half)) w'
                  (intervals (script_loaded Examples.draws_half))) /\
    exists out,
      positions p !! 0 = Some out /\
      count out = 2 /\
      array out = replicate 6 F32.NaN.
Proof.
  destruct (C4_load_never_fails [Examples.no_points; Examples.two_points]
              (script_loaded Examples.draws_half)) as (p & w' & Hret & _ & _ & Hzero).
  exists p, w'. split; [exact Hret|].
  apply (Hzero [] Examples.no_points [Examples.two_points]).
  - reflexivity.
  - reflexivity.
  - vm_compute. lia.
Defined.

(** ** C9: the fragment shader *)

(** C9.  The alpha written by [main] is [0.05 / d - 0.1], where [d] is the
    Euclidean distance of the sprite coordinate from the centre (0.5, 0.5):
    the square root of the sum of the squares of the two offsets.  In
    binary32 arithmetic [alpha(0.5)] is exactly [+0.0] and [alpha(0.25)] is
    exactly the float [0.1].  Coordinates at distance 0.5 get alpha 0 and
    coordinates at distance 0.25 get alpha 0.1 on both axes and off them
    (offsets (-0.4, -0.3), (0.3, -0.4), (0.24, 0.07), (-0.07, -0.24)); the
    coordinate (0.875, 1.0), with offsets (0.375, 0.5), is at distance 0.625
    and gets [alpha(0.625)], which is negative. *)
Theorem C9_alpha_boundary :
  (forall uv,
     Shader.a (Shader.main uv)
     = F32.sub
         (F32.div (F32.literal 5 100)
            (F32.sqrt
               (F32.add
                  (F32.mul (F32.sub (fst uv) (F32.literal 5 10))
                           (F32.sub (fst uv) (F32.literal 5 10)))
                  (F32.mul (F32.sub (snd uv) (F32.literal 5 10))
                           (F32.sub (snd uv) (F32.literal 5 10))))))
         (F32.literal 1 10)) /\
  (forall uv,
     Shader.a (Shader.main uv)
     = Shader.alpha (Shader.length (Shader.vec2_sub_scalar uv (F32.literal 5 10)))) /\
  (forall d,
     Shader.alpha d = F32.sub (F32.div (F32.literal 5 100) d) (F32.literal 1 10)) /\
  Shader.alpha (F32.literal 5 10) = F32.zero /\
  Shader.alpha (F32.literal 25 100) = F32.literal 1 10 /\
  Shader.a (Shader.main (F32.literal 1 1, F32.literal 5 10)) = F32.zero /\
  Shader.a (Shader.main (F32.literal 5 10, F32.literal 0 1)) = F32.zero /\
  Shader.a (Shader.main (F32.literal 75 100, F32.literal 5 10)) = F32.literal 1 10 /\
  Shader.a (Shader.main (F32.literal 5 10, F32.literal 25 100)) = F32.literal 1 10 /\
  Shader.length (Shader.vec2_sub_scalar (F32.literal 1 10, F32.literal 2 10)
                   (F32.literal 5 10)) = F32.literal 5 10 /\
  Shader.a (Shader.main (F32.literal 1 10, F32.literal 2 10)) = F32.zero /\
  Shader.a (Shader.main (F32.literal 8 10, F32.literal 1 10)) = F32.zero /\
  Shader.length (Shader.vec2_sub_scalar (F32.literal 74 100, F32.literal 57 100)
                   (F32.literal 5 10)) = F32.literal 25 100 /\
  Shader.a (Shader.main (F32.literal 74 100, F32.literal 57 100)) = F32.literal 1 10 /\
  Shader.a (Shader.main (F32.literal 43 100, F32.literal 26 100)) = F32.literal 1 10 /\
  Shader.length (Shader.vec2_sub_scalar (F32.literal 875 1000, F32.literal 1 1)
                   (F32.literal 5 10)) = F32.literal 625 1000 /\
  Shader.a (Shader.main (F32.literal 875 1000, F32.literal 1 1))
  = Shader.alpha (F32.literal 625 1000) /\
  Shader.alpha (F32.literal 625 1000) = S754_finite true 10737420 (-29).
Proof.
  split; [reflexivity|]. split; [reflexivity|]. split; [reflexivity|].
  repeat split; vm_compute; reflexivity.
Qed.

(** ** C10: the interval callback before the asset is loaded *)

(** C10.  Once the top level of the script has run, [particles] is [null]
    and the interval of [swapModels] is running.  If it fires in that state
    the callback reads [particles.index] on [null] and throws; the same
    holds in any page whose [particles] is [null].  The per-frame callback
    tests [particles] first and returns normally. *)
Theorem C10_interval_faults_on_null (w : JS.World) (g : Gsap.Engine)
    (ints : list Z) (elapsedTime : Q) :
  particles (script_loaded w) = None /\
  intervals (script_loaded w) = [swap_delay_ms] /\
  handle IntervalFired (script_loaded w) = TypeError (script_loaded w) /\
  handle (FrameRequested elapsedTime) (script_loaded w) = Returned (script_loaded w) /\
  swap_callback (mkPage None g w ints) = TypeError (mkPage None g w ints) /\
  tick elapsedTime (mkPage None g w ints) = Returned (mkPage None g w ints).
Proof. repeat split. Qed.

(** ** C5: [morph] with any index *)

Lemma index_Z_out_of_range {A : Type} (l : list A) (j : Z) :
  ~ (0 <= j < Z.of_nat (length l))%Z -> JS.index_Z l j = None.
Proof.
  intros Hj. unfold JS.index_Z.
  destruct (j <? 0)%Z eqn:Hneg; [done|].
  apply Z.ltb_ge in Hneg. apply lookup_ge_None. lia.
Qed.

Lemma index_Z_in_range {A : Type} (l : list A) (j : Z) :
  (0 <= j < Z.of_nat (length l))%Z -> is_Some (JS.index_Z l j).
Proof.
  intros Hj. unfold JS.index_Z.
  destruct (j <? 0)%Z eqn:Hneg; [apply Z.ltb_lt in Hneg; lia|].
  apply lookup_lt_is_Some. lia.
Qed.

(** C5, as stated, fails: on the page with four variants [morph(7)] returns
    normally, stores 7 as the index, leaves the target attribute undefined
    and starts a tween. *)
Lemma C5_morph_7_counterexample :
  exists p page' p',
    particles Examples.loaded_page = Some p /\
    length (positions p) = 4 /\
    index p = 0%Z /\
    Gsap.tweens (gsap Examples.loaded_page) = [] /\
    call_morph 7 Examples.loaded_page = Returned page' /\
    particles page' = Some p' /\
    index p' = 7%Z /\
    aPositionTarget p' = None /\
    length (Gsap.tweens (gsap page')) = 1.
Proof.
  eexists. eexists. eexists.
  split; [vm_compute; reflexivity|].
  repeat split.
Qed.

(** C5 (amended).  For every index [j], in range or not, [morph(j)] returns
    normally (the script has no [InvalidVariantIndexError]): the position
    attribute becomes [positions[currentIndex]], the target attribute
    becomes [positions[j]], which is undefined when [j] is outside
    [0, variantCount), progress restarts at 0 with a new tween, and [j] is
    stored as the current index. *)
Theorem C5_morph_any_index (j : Z) (p : Particles) (g : Gsap.Engine)
    (w : JS.World) (ints : list Z) :
  exists p' g',
    call_morph j (mkPage (Some p) g w ints) = Returned (mkPage (Some p') g' w ints) /\
    index p' = j /\
    positions p' = positions p /\
    position p' = JS.index_Z (positions p) (index p) /\
    aPositionTarget p' = JS.index_Z (positions p) j /\
    (~ (0 <= j < Z.of_nat (length (positions p)))%Z -> aPositionTarget p' = None) /\
    uProgress p' = 0%Q /\
    Gsap.tweens g' = Gsap.tweens g ++ [Gsap.mkTween (Gsap.time g) 0 1 3 Gsap.linear].
Proof.
  eexists. eexists. split; [reflexivity|]. cbn.
  repeat split. apply index_Z_out_of_range.
Qed.

Lemma C5_morph_any_index_witness :
  exists p' g',
    call_morph 7 Examples.loaded_page
    = Returned (mkPage (Some p') g' (world Examples.loaded_page)
                  (intervals Examples.loaded_page)) /\
    index p' = 7%Z /\
    aPositionTarget p' = None.
Proof.
  destruct (particles Examples.loaded_page) as [p|] eqn:Hp; [|discriminate Hp].
  destruct (C5_morph_any_index 7 p (gsap Examples.loaded_page)
              (world Examples.loaded_page) (intervals Examples.loaded_page))
    as (p' & g' & Hcall & Hidx & _ & _ & _ & Hout & _).
  exists p', g'. split; [|split; [exact Hidx|]].
  - rewrite <- Hcall. unfold call_morph at 1. rewrite Hp. reflexivity.
  - apply Hout. injection Hp as <-. vm_compute. intros [_ H]. discriminate H.
Defined.

(** ** The tween engine *)

Lemma not_completed_iff (t : Q) (tw : Gsap.Tween) :
  Gsap.completed t tw = false <-> (t - Gsap.start tw < Gsap.duration tw)%Q.
Proof.
  unfold Gsap.completed. split.
  - intros H. apply Qnot_le_lt. intros Hle.
    apply Qle_bool_iff in Hle. congruence.
  - intros H. destruct (Qle_bool _ _) eqn:Hb; [|done].
    apply Qle_bool_iff in Hb. apply Qlt_not_le in H. contradiction.
Qed.

(** The last live tween decides the value left by a tick. *)
Lemma tick_value_snoc (t v t0 : Q) (older : list Gsap.Tween) (tw : Gsap.Tween) :
  fst (Gsap.tick t v (Gsap.mkEngine t0 (older ++ [tw]))) = Gsap.value_at tw t.
Proof. unfold Gsap.tick. cbn [fst Gsap.tweens]. by rewrite foldl_snoc. Qed.

Lemma tick_value_nil (t v t0 : Q) :
  fst (Gsap.tick t v (Gsap.mkEngine t0 [])) = v.
Proof. reflexivity. Qed.

Lemma filter_live_snoc (t : Q) (older : list Gsap.Tween) (tw : Gsap.Tween) :
  Gsap.completed t tw = false ->
  filter (fun x => Gsap.completed t x = false) (older ++ [tw])
  = filter (fun x => Gsap.completed t x = false) older ++ [tw].
Proof.
  intros H. rewrite filter_app. f_equal.
  rewrite filter_cons_True by done. done.
Qed.

(** The tween of [morph] started at [t0], read at [t]. *)
Lemma morph_tween_value (t0 t : Q) :
  (Gsap.value_at (Gsap.mkTween t0 0 1 3 Gsap.linear) t
   == Qmin 1 (Qmax 0 ((t - t0) / 3)))%Q.
Proof. unfold Gsap.value_at, Gsap.ratio. cbn. ring. Qed.

Lemma third_le (x y : Q) : (x <= y -> x / 3 <= y / 3)%Q.
Proof.
  intros H. unfold Qdiv. apply Qmult_le_compat_r; [done|]. discriminate.
Qed.

Lemma linear_law_mono (t0 t t' : Q) :
  (t <= t' -> Qmin 1 (Qmax 0 ((t - t0) / 3)) <= Qmin 1 (Qmax 0 ((t' - t0) / 3)))%Q.
Proof.
  intros H. apply Q.min_le_compat_l, Q.max_le_compat_l, third_le.
  lra.
Qed.

Lemma linear_law_start (t0 : Q) : (Qmin 1 (Qmax 0 ((t0 - t0) / 3)) == 0)%Q.
Proof.
  assert (H : ((t0 - t0) / 3 == 0)%Q) by (unfold Qdiv; ring).
  rewrite H. reflexivity.
Qed.

Lemma linear_law_inside (t0 t : Q) :
  (t0 <= t -> t <= t0 + 3 -> Qmin 1 (Qmax 0 ((t - t0) / 3)) == (t - t0) / 3)%Q.
Proof.
  intros H0 H1.
  assert (Hlo : (0 <= (t - t0) / 3)%Q).
  { apply Qle_shift_div_l; [reflexivity|]. lra. }
  assert (Hhi : ((t - t0) / 3 <= 1)%Q).
  { apply Qle_shift_div_r; [reflexivity|]. lra. }
  rewrite Q.max_r by done. rewrite Q.min_r by done. reflexivity.
Qed.

Lemma linear_law_end (t0 t : Q) :
  (t0 + 3 <= t -> Qmin 1 (Qmax 0 ((t - t0) / 3)) == 1)%Q.
Proof.
  intros H.
  assert (Hhi : (1 <= (t - t0) / 3)%Q).
  { apply Qle_shift_div_l; [reflexivity|]. lra. }
  rewrite Q.max_r by lra. rewrite Q.min_l by done. reflexivity.
Qed.

(** ** C7: the interval callback walks through the variants *)

Lemma next_index_mod (p : Particles) :
  (0 <= index p < Z.of_nat (length (positions p)))%Z ->
  next_index p = ((index p + 1) mod Z.of_nat (length (positions p)))%Z.
Proof.
  intros Hi. unfold next_index.
  destruct (index p >=? Z.of_nat (length (positions p)) - 1)%Z eqn:Hge.
  - apply Z.geb_le in Hge.
    replace (index p + 1)%Z with (Z.of_nat (length (positions p))) by lia.
    rewrite Z.mod_same by lia. done.
  - rewrite Z.geb_leb in Hge. apply Z.leb_gt in Hge.
    rewrite Z.mod_small by lia. done.
Qed.

(** One firing on a page that has its particle set. *)
Lemma swap_callback_loaded (page : Page) (p : Particles) :
  particles page = Some p ->
  exists p',
    particles (page_of (swap_callback page)) = Some p' /\
    positions p' = positions p /\
    index p' = next_index p.
Proof.
  intros Hp. unfold swap_callback, call_morph. rewrite Hp.
  eexists. cbn. done.
Qed.

Lemma run_cons (e : Event) (es : list Event) (page : Page) :
  run (e :: es) page = run es (page_of (handle e page)).
Proof. reflexivity. Qed.

Lemma run_app (es1 es2 : list Event) (page : Page) :
  run (es1 ++ es2) page = run es2 (run es1 page).
Proof. unfold run. apply foldl_app. Qed.

(** The index after [k] firings. *)
Lemma fired_index (k : nat) :
  forall (page : Page) (p : Particles),
    particles page = Some p ->
    (0 <= index p < Z.of_nat (length (positions p)))%Z ->
    current_index (run (replicate k IntervalFired) page)
    = Some ((index p + Z.of_nat k) mod Z.of_nat (length (positions p)))%Z.
Proof.
  induction k as [|k IH]; intros page p Hp Hi.
  - cbn. unfold current_index. rewrite Hp, Z.add_0_r, Z.mod_small by lia. done.
  - rewrite replicate_S, run_cons. cbn [handle].
    destruct (swap_callback_loaded page p Hp) as (p' & Hp' & Hpos & Hidx).
    rewrite (next_index_mod p Hi) in Hidx.
    rewrite (IH _ p' Hp'); rewrite Hpos, Hidx.
    + f_equal. rewrite Zplus_mod_idemp_l. f_equal. lia.
    + apply Z.mod_pos_bound. lia.
Qed.

Lemma mod_shift_inj (n i a b : Z) :
  (0 <= a < n)%Z -> (0 <= b < n)%Z ->
  ((i + a) mod n = (i + b) mod n)%Z -> a = b.
Proof.
  intros Ha Hb Heq.
  pose proof (Z.div_mod (i + a) n ltac:(lia)) as H1.
  pose proof (Z.div_mod (i + b) n ltac:(lia)) as H2.
  rewrite Heq in H1.
  assert (Hd : (a - b = n * ((i + a) / n - (i + b) / n))%Z) by lia.
  assert (Hq : ((i + a) / n - (i + b) / n = 0)%Z) by nia.
  rewrite Hq in Hd. lia.
Qed.

Lemma visited_spec (k : nat) (page : Page) (p : Particles) :
  particles page = Some p ->
  (0 <= index p < Z.of_nat (length (positions p)))%Z ->
  visited k page
  = (fun m => Some ((index p + Z.of_nat (S m)) mod Z.of_nat (length (positions p)))%Z)
      <$> seq 0 k.
Proof.
  intros Hp Hi. unfold visited.
  apply list_fmap_ext. intros _ m _. by apply fired_index.
Qed.

(** Over [variantCount] firings every index is met exactly once. *)
Lemma visited_permutation (page : Page) (p : Particles) :
  particles page = Some p ->
  (0 <= index p < Z.of_nat (length (positions p)))%Z ->
  visited (length (positions p)) page
  ≡ₚ (fun m => Some (Z.of_nat m)) <$> seq 0 (length (positions p)).
Proof.
  intros Hp Hi. rewrite (visited_spec _ page p Hp Hi).
  set (n := length (positions p)) in *.
  apply NoDup_Permutation.
  - apply NoDup_fmap_2_strong; [|apply NoDup_seq].
    intros a b Ha Hb Heq. apply elem_of_seq in Ha, Hb.
    injection Heq as Heq.
    replace (index p + Z.of_nat (S a))%Z with ((index p + 1) + Z.of_nat a)%Z in Heq by lia.
    replace (index p + Z.of_nat (S b))%Z with ((index p + 1) + Z.of_nat b)%Z in Heq by lia.
    apply mod_shift_inj in Heq; lia.
  - apply NoDup_fmap_2_strong; [|apply NoDup_seq].
    intros a b _ _ Heq. injection Heq as Heq. lia.
  - intros x. rewrite !list_elem_of_fmap. split.
    + intros (m & -> & Hm). apply elem_of_seq in Hm.
      pose proof (Z.mod_pos_bound (index p + Z.of_nat (S m)) (Z.of_nat n) ltac:(lia)) as Hb.
      exists (Z.to_nat ((index p + Z.of_nat (S m)) mod Z.of_nat n)).
      split; [f_equal; lia|]. apply elem_of_seq. lia.
    + intros (z & -> & Hz). apply elem_of_seq in Hz.
      pose proof (Z.mod_pos_bound (Z.of_nat z - index p - 1) (Z.of_nat n) ltac:(lia)) as Hb.
      exists (Z.to_nat ((Z.of_nat z - index p - 1) mod Z.of_nat n)).
      split; [|apply elem_of_seq; lia].
      f_equal.
      replace (index p + Z.of_nat (S (Z.to_nat ((Z.of_nat z - index p - 1) mod Z.of_nat n))))%Z
        with ((index p + 1) + (Z.of_nat z - index p - 1) mod Z.of_nat n)%Z by lia.
      rewrite Zplus_mod_idemp_r.
      replace (index p + 1 + (Z.of_nat z - index p - 1))%Z with (Z.of_nat z) by lia.
      rewrite Z.mod_small by lia. done.
Qed.

(** C7.  On a page whose index is in range, each firing of the interval
    (every [swap_delay_ms] = 4000 ms, that is 4 s, against the 3 s of a
    tween) calls [morph((index + 1) mod variantCount)]; after [k] firings the
    index is [(index + k) mod variantCount]; the [variantCount] indices
    visited by [variantCount] consecutive firings are every variant index
    exactly once; and the sequence repeats with period [variantCount]. *)
Theorem C7_cycle_coverage (page : Page) (p : Particles) :
  particles page = Some p ->
  (0 <= index p < Z.of_nat (length (positions p)))%Z ->
  swap_delay_ms = 4000%Z /\
  (forall w, intervals (script_loaded w) = [swap_delay_ms]) /\
  swap_callback page
  = call_morph ((index p + 1) mod Z.of_nat (length (positions p)))%Z page /\
  (forall k,
     current_index (run (replicate k IntervalFired) page)
     = Some ((index p + Z.of_nat k) mod Z.of_nat (length (positions p)))%Z) /\
  visited (length (positions p)) page
  ≡ₚ (fun m => Some (Z.of_nat m)) <$> seq 0 (length (positions p)) /\
  (forall k,
     current_index (run (replicate (length (positions p) + k) IntervalFired) page)
     = current_index (run (replicate k IntervalFired) page)).
Proof.
  intros Hp Hi. split; [reflexivity|]. split; [reflexivity|]. split.
  { unfold swap_callback. rewrite Hp, (next_index_mod p Hi). reflexivity. }
  split; [intros k; by apply fired_index|].
  split; [by apply visited_permutation|].
  intros k. rewrite !(fired_index _ page p Hp Hi). f_equal.
  rewrite Nat2Z.inj_add.
  replace (index p + (Z.of_nat (length (positions p)) + Z.of_nat k))%Z
    with (index p + Z.of_nat k + 1 * Z.of_nat (length (positions p)))%Z by lia.
  apply Z.mod_add. lia.
Qed.

Lemma C7_cycle_coverage_witness :
  visited 4 Examples.loaded_page = [Some 1; Some 2; Some 3; Some 0]%Z /\
  visited 4 Examples.loaded_page ≡ₚ (fun m => Some (Z.of_nat m)) <$> seq 0 4 /\
  current_index (run (replicate (4 + 1) IntervalFired) Examples.loaded_page)
  = current_index (run (replicate 1 IntervalFired) Examples.loaded_page).
Proof.
  split; [vm_compute; reflexivity|].
  destruct (particles Examples.loaded_page) as [p|] eqn:Hp; [|discriminate Hp].
  assert (Hlen : length (positions p) = 4).
  { injection Hp as <-. vm_compute. reflexivity. }
  assert (Hidx : index p = 0%Z).
  { injection Hp as <-. vm_compute. reflexivity. }
  destruct (C7_cycle_coverage Examples.loaded_page p Hp) as (_ & _ & _ & _ & Hperm & Hrep).
  - rewrite Hlen, Hidx. lia.
  - rewrite Hlen in Hperm, Hrep. split; [exact Hperm|exact (Hrep 1)].
Defined.

(** ** C8: progress within a transition *)

Lemma morph_tween_law (tw : Gsap.Tween) (t : Q) :
  morph_tween tw -> (Gsap.value_at tw t == linear_law (Gsap.start tw) t)%Q.
Proof.
  destruct tw as [s a b d e]. intros (Ha & Hb & Hd & He). cbn in *. subst.
  apply morph_tween_value.
Qed.

Lemma morph_tween_completed (t : Q) (x tw : Gsap.Tween) :
  morph_tween x -> morph_tween tw ->
  (Gsap.start x <= Gsap.start tw)%Q ->
  Gsap.completed t tw = true -> Gsap.completed t x = true.
Proof.
  intros (_ & _ & Hx & _) (_ & _ & Htw & _) Hle.
  unfold Gsap.completed. rewrite Hx, Htw, !Qle_bool_iff. lra.
Qed.

(** When the newest tween has completed, so have all the others. *)
Lemma filter_live_all_completed (t : Q) (older : list Gsap.Tween) (tw : Gsap.Tween) :
  Forall morph_tween (older ++ [tw]) ->
  Forall (fun x => (Gsap.start x <= Gsap.start tw)%Q) older ->
  Gsap.completed t tw = true ->
  filter (fun x => Gsap.completed t x = false) (older ++ [tw]) = [].
Proof.
  intros Hall Hsorted Hdone.
  apply Forall_app in Hall as [Hold Htw]. rewrite Forall_singleton in Htw.
  rewrite filter_app, filter_cons_False, filter_nil, app_nil_r by congruence.
  induction older as [|x older IH]; [done|].
  inversion Hold; subst. inversion Hsorted; subst.
  rewrite filter_cons_False; [by apply IH|].
  rewrite (morph_tween_completed t x tw); done.
Qed.

Lemma snoc_or_nil {A : Type} (l : list A) : l = [] \/ exists older x, l = older ++ [x].
Proof.
  induction l as [|y l IH] using rev_ind; [by left|]. right. by exists l, y.
Qed.

Lemma engine_invariant_loaded (w : JS.World) : engine_invariant (script_loaded w).
Proof.
  repeat split; cbn; try done.
  - destruct older; discriminate.
  - destruct older; discriminate.
Qed.

Lemma engine_invariant_morph (j : Z) (page : Page) :
  engine_invariant page -> engine_invariant (page_of (call_morph j page)).
Proof.
  intros (Hall & Hnone & Hlast). unfold call_morph.
  destruct (particles page) as [p|] eqn:Hp; [|cbn; unfold engine_invariant; by rewrite Hp].
  cbn. unfold engine_invariant. cbn. split; [|split].
  - apply Forall_app. split; [done|]. constructor; [|constructor].
    split; [done|]. apply Qle_refl.
  - discriminate.
  - intros older tw Heq. apply app_inj_tail in Heq as [<- <-]. cbn. split.
    + eapply Forall_impl; [exact Hall|]. intros x [_ Hx]. exact Hx.
    + unfold progress. cbn. rewrite morph_tween_value, linear_law_start. reflexivity.
Qed.

Lemma engine_invariant_tick (t : Q) (page : Page) :
  (Gsap.time (gsap page) <= t)%Q ->
  engine_invariant page -> engine_invariant (page_of (gsap_tick t page)).
Proof.
  intros Ht (Hall & Hnone & Hlast).
  assert (Hg : gsap (page_of (gsap_tick t page))
               = Gsap.mkEngine t (filter (fun x => Gsap.completed t x = false)
                                    (Gsap.tweens (gsap page)))).
  { unfold gsap_tick. destruct (particles page); reflexivity. }
  assert (Hpart : particles (page_of (gsap_tick t page)) = None -> particles page = None).
  { unfold gsap_tick. destruct (particles page); [discriminate|done]. }
  unfold engine_invariant. rewrite Hg. cbn [Gsap.time Gsap.tweens]. split; [|split].
  - apply Forall_forall. intros x Hx. apply list_elem_of_filter in Hx as [_ Hx].
    rewrite Forall_forall in Hall. destruct (Hall x Hx) as [Hm Hs].
    split; [done|]. lra.
  - intros Hn. rewrite (Hnone (Hpart Hn)). done.
  - intros older' tw' Heq.
    destruct (snoc_or_nil (Gsap.tweens (gsap page))) as [Hnil|(older & tw & Hsnoc)].
    { rewrite Hnil in Heq. destruct older'; discriminate. }
    destruct (Hlast older tw Hsnoc) as [Hsorted _].
    rewrite Hsnoc in Heq, Hall.
    destruct (Gsap.completed t tw) eqn:Hc.
    { rewrite filter_live_all_completed in Heq; [destruct older'; discriminate| |done|done].
      eapply Forall_impl; [exact Hall|]. by intros x [Hx _]. }
    rewrite (filter_live_snoc t older tw Hc) in Heq.
    apply app_inj_tail in Heq as [<- <-]. split.
    + apply Forall_forall. intros x Hx. apply list_elem_of_filter in Hx as [_ Hx].
      rewrite Forall_forall in Hsorted. by apply Hsorted.
    + unfold progress, gsap_tick.
      destruct (particles page) as [p|] eqn:Hp.
      * pose proof (tick_value_snoc t (uProgress p) (Gsap.time (gsap page)) older tw) as Hv.
        destruct (gsap page) as [t0 tws]. cbn in Hsnoc. subst tws.
        destruct (Gsap.tick t (uProgress p) _) as [v g']. cbn in *. rewrite Hv. reflexivity.
      * rewrite (Hnone eq_refl) in Hsnoc. destruct older; discriminate.
Qed.

Lemma engine_invariant_event (e : Event) (page : Page) :
  Admissible e page -> engine_invariant page ->
  engine_invariant (page_of (handle e page)).
Proof.
  intros Hadm Hinv. destruct Hadm as [gltf page Hnull| page | j page _ | el page | t page Ht].
  - destruct Hinv as (Hall & Hnone & Hlast). cbn [handle]. unfold on_load.
    destruct (build_particles gltf (world page)) as [p w']. cbn [page_of].
    unfold engine_invariant. cbn [gsap particles]. rewrite (Hnone Hnull).
    repeat split; try done; destruct older; discriminate.
  - cbn [handle]. unfold swap_callback.
    destruct (particles page) as [p|] eqn:Hp; [by apply engine_invariant_morph|done].
  - by apply engine_invariant_morph.
  - cbn [handle]. unfold tick. destruct (particles page) as [p|] eqn:Hp; [|done].
    cbn [page_of]. destruct Hinv as (Hall & Hnone & Hlast).
    unfold engine_invariant, progress in *. rewrite Hp in Hlast. cbn.
    split; [done|]. split; [discriminate|exact Hlast].
  - by apply engine_invariant_tick.
Qed.

Lemma reachable_invariant (w : JS.World) (page : Page) :
  Reachable w page -> engine_invariant page.
Proof.
  induction 1 as [|page e _ IH Hadm].
  - apply engine_invariant_loaded.
  - by apply engine_invariant_event.
Qed.

(** A tick of the engine never lowers progress. *)
Lemma tick_progress_mono (t : Q) (page : Page) :
  engine_invariant page ->
  (Gsap.time (gsap page) <= t)%Q ->
  (progress page <= progress (page_of (gsap_tick t page)))%Q.
Proof.
  intros (Hall & Hnone & Hlast) Ht. unfold progress, gsap_tick in *.
  destruct (particles page) as [p|] eqn:Hp; [|apply Qle_refl].
  destruct (snoc_or_nil (Gsap.tweens (gsap page))) as [Hnil|(older & tw & Hsnoc)].
  - destruct (gsap page) as [t0 tws]. cbn in Hnil. subst tws. cbn. apply Qle_refl.
  - destruct (Hlast older tw Hsnoc) as [_ Hval].
    rewrite Hsnoc in Hall. apply Forall_app in Hall as [_ Htw].
    rewrite Forall_singleton in Htw. destruct Htw as [Htw _].
    pose proof (tick_value_snoc t (uProgress p) (Gsap.time (gsap page)) older tw) as Hv.
    destruct (gsap page) as [t0 tws]. cbn in Hsnoc. subst tws.
    destruct (Gsap.tick t (uProgress p) _) as [v g']. cbn in *. subst v.
    rewrite Hval, !(morph_tween_law tw) by done.
    by apply linear_law_mono.
Qed.

(** Only a call of [morph] lowers progress. *)
Lemma progress_lowered_by_morph_only (e : Event) (page : Page) :
  engine_invariant page -> Admissible e page ->
  (progress (page_of (handle e page)) < progress page)%Q ->
  e = IntervalFired \/ exists j, e = MorphCalled j.
Proof.
  intros Hinv Hadm Hlt.
  destruct Hadm as [gltf page Hnull| page | j page _ | el page | t page Ht].
  - exfalso. cbn [handle] in Hlt.
    assert (Hnew : progress (page_of (on_load gltf page)) = 0%Q).
    { unfold on_load.
      pose proof (build_particles_positions gltf (world page)) as (_ & _ & _ & Hu).
      destruct (build_particles gltf (world page)) as [p w']. exact Hu. }
    assert (Hold : progress page = 0%Q) by (unfold progress; by rewrite Hnull).
    rewrite Hnew, Hold in Hlt. by apply Qlt_irrefl in Hlt.
  - by left.
  - right. by exists j.
  - exfalso. cbn [handle] in Hlt. unfold tick, progress in Hlt.
    destruct (particles page) as [p|] eqn:Hp; cbn in Hlt; rewrite ?Hp in Hlt;
      by apply Qlt_irrefl in Hlt.
  - exfalso. cbn [handle] in Hlt.
    pose proof (tick_progress_mono t page Hinv Ht) as Hle.
    apply Qlt_not_le in Hlt. contradiction.
Qed.

Lemma last_cons_default (t0 t : Q) (ts : list Q) :
  default t0 (last (t :: ts)) = default t (last ts).
Proof.
  destruct ts as [|t' ts]; [done|]. rewrite last_cons_cons.
  destruct (last (t' :: ts)) eqn:Hl; [done|]. apply last_None in Hl. discriminate.
Qed.

(** Ticks after a [morph] at [t0], with no other call in between: progress
    follows the linear law of the tween started at [t0], also once that
    tween has completed and left the engine. *)
Lemma ticks_follow_law (t0 : Q) (ts : list Q) :
  forall (page : Page) (p : Particles),
    particles page = Some p ->
    ascending (Gsap.time (gsap page)) ts ->
    (t0 <= Gsap.time (gsap page))%Q ->
    (uProgress p == linear_law t0 (Gsap.time (gsap page)))%Q ->
    (Gsap.tweens (gsap page) = [] /\ (t0 + 3 <= Gsap.time (gsap page))%Q \/
     exists older,
       Gsap.tweens (gsap page) = older ++ [Gsap.mkTween t0 0 1 3 Gsap.linear] /\
       Forall (fun x => morph_tween x /\ (Gsap.start x <= t0)%Q) older) ->
    (progress (run (TweenTicked <$> ts) page)
     == linear_law t0 (default (Gsap.time (gsap page)) (last ts)))%Q.
Proof.
  induction ts as [|t ts IH]; intros page p Hp Hasc Ht0 Hval Hengine.
  - cbn. unfold progress. by rewrite Hp.
  - destruct Hasc as [Ht Hasc]. rewrite fmap_cons, run_cons, last_cons_default.
    cbn [handle]. destruct page as [ps [t' tws] w ints]. cbn in *. subst ps.
    unfold gsap_tick. cbn [particles gsap world intervals].
    destruct Hengine as [[-> Hdone]|(older & -> & Hold)].
    + cbn [Gsap.tick Gsap.tweens foldl page_of].
      eapply IH; cbn; try done.
      * lra.
      * cbn [uProgress]. rewrite Hval. unfold linear_law.
        rewrite !linear_law_end by lra. reflexivity.
      * left. split; [done|lra].
    + pose proof (tick_value_snoc t (uProgress p) t' older
                    (Gsap.mkTween t0 0 1 3 Gsap.linear)) as Hv.
      unfold Gsap.tick in *. cbn [fst Gsap.tweens page_of] in *.
      eapply IH; cbn [particles gsap Gsap.time Gsap.tweens uProgress]; try done.
      * lra.
      * rewrite Hv. apply morph_tween_value.
      * destruct (Gsap.completed t (Gsap.mkTween t0 0 1 3 Gsap.linear)) eqn:Hc.
        -- left. split.
           ++ apply filter_live_all_completed; [| |done].
              ** apply Forall_app. split; [|by repeat constructor].
                 eapply Forall_impl; [exact Hold|]. by intros x [Hx _].
              ** eapply Forall_impl; [exact Hold|]. by intros x [_ Hx].
           ++ unfold Gsap.completed in Hc. apply Qle_bool_iff in Hc. cbn in Hc. lra.
        -- right. eexists. split; [by apply filter_live_snoc|].
           apply Forall_forall. intros x Hx. apply list_elem_of_filter in Hx as [_ Hx].
           rewrite Forall_forall in Hold. by apply Hold.
Qed.

Lemma ascending_last_le (ts : list Q) :
  forall t0, ascending t0 ts -> (t0 <= default t0 (last ts))%Q.
Proof.
  induction ts as [|t ts IH]; intros t0 Hasc.
  - apply Qle_refl.
  - destruct Hasc as [Ht Hasc]. rewrite last_cons_default.
    apply Qle_trans with t; [done|]. by apply IH.
Qed.

Lemma ascending_app (ts1 ts2 : list Q) :
  forall t0,
    ascending t0 (ts1 ++ ts2) ->
    ascending t0 ts1 /\
    (default t0 (last ts1) <= default t0 (last (ts1 ++ ts2)))%Q.
Proof.
  induction ts1 as [|t ts1 IH]; intros t0 Hasc.
  - split; [done|]. by apply ascending_last_le.
  - destruct Hasc as [Ht Hasc]. destruct (IH t Hasc) as [H1 H2].
    split; [done|]. rewrite <- app_comm_cons, !last_cons_default. done.
Qed.

(** The page right after [morph(j)], and the ticks that follow it. *)
Lemma morph_then_ticks (w : JS.World) (page : Page) (p : Particles) (j : Z)
    (ts : list Q) :
  Reachable w page ->
  particles page = Some p ->
  ascending (Gsap.time (gsap page)) ts ->
  (progress (run (MorphCalled j :: (TweenTicked <$> ts)) page)
   == linear_law (Gsap.time (gsap page)) (default (Gsap.time (gsap page)) (last ts)))%Q.
Proof.
  intros Hreach Hp Hasc.
  destruct (reachable_invariant w page Hreach) as (Hall & _ & _).
  rewrite run_cons. cbn [handle]. unfold call_morph. rewrite Hp.
  cbn [morph Gsap.fromTo page_of].
  apply (ticks_follow_law (Gsap.time (gsap page)) ts
           (mkPage _ (Gsap.mkEngine (Gsap.time (gsap page)) _) _ _) _ eq_refl);
    cbn [gsap Gsap.time Gsap.tweens uProgress].
  - done.
  - apply Qle_refl.
  - unfold linear_law. by rewrite linear_law_start.
  - right. exists (Gsap.tweens (gsap page)). done.
Qed.

(** C8.  On any page the script can be in, a call of [morph] sets progress
    to 0 and registers a tween from 0 to 1 with duration 3 and linear ease.
    As long as no other call of [morph] follows, after ticks at clock
    readings that do not go back progress is [min(1, (t - t0) / 3)], where
    [t0] is the reading at the call and [t] the latest reading: it is
    [(t - t0) / 3] up to [t0 + 3] and 1 from then on, and it does not
    decrease from one tick to the next.  No event other than a call of
    [morph] (from the interval or from outside) lowers progress. *)
Theorem C8_progress_law (w : JS.World) (page : Page) (p : Particles) (j : Z)
    (ts : list Q) :
  Reachable w page ->
  particles page = Some p ->
  ascending (Gsap.time (gsap page)) ts ->
  progress (run [MorphCalled j] page) = 0%Q /\
  last (Gsap.tweens (gsap (run [MorphCalled j] page)))
  = Some (Gsap.mkTween (Gsap.time (gsap page)) 0 1 3 Gsap.linear) /\
  (progress (run (MorphCalled j :: (TweenTicked <$> ts)) page)
   == Qmin 1 (Qmax 0 ((default (Gsap.time (gsap page)) (last ts) - Gsap.time (gsap page)) / 3)))%Q /\
  ((default (Gsap.time (gsap page)) (last ts) <= Gsap.time (gsap page) + 3)%Q ->
   (progress (run (MorphCalled j :: (TweenTicked <$> ts)) page)
    == (default (Gsap.time (gsap page)) (last ts) - Gsap.time (gsap page)) / 3)%Q) /\
  ((Gsap.time (gsap page) + 3 <= default (Gsap.time (gsap page)) (last ts))%Q ->
   (progress (run (MorphCalled j :: (TweenTicked <$> ts)) page) == 1)%Q) /\
  (forall ts1 ts2,
     ts = ts1 ++ ts2 ->
     (progress (run (MorphCalled j :: (TweenTicked <$> ts1)) page)
      <= progress (run (MorphCalled j :: (TweenTicked <$> ts)) page))%Q) /\
  (forall e,
     Admissible e page ->
     (progress (page_of (handle e page)) < progress page)%Q ->
     e = IntervalFired \/ exists j', e = MorphCalled j').
Proof.
  intros Hreach Hp Hasc.
  pose proof (morph_then_ticks w page p j ts Hreach Hp Hasc) as Hlaw.
  pose proof (ascending_last_le ts _ Hasc) as Hlast.
  split; [|split].
  { unfold run. cbn [foldl handle]. unfold call_morph, progress. by rewrite Hp. }
  { unfold run. cbn [foldl handle]. unfold call_morph. rewrite Hp.
    cbn. apply last_snoc. }
  split; [exact Hlaw|]. split; [|split; [|split]].
  - intros Hin. rewrite Hlaw. by apply linear_law_inside.
  - intros Hout. rewrite Hlaw. by apply linear_law_end.
  - intros ts1 ts2 ->. destruct (ascending_app ts1 ts2 _ Hasc) as [Hasc1 Hle].
    rewrite Hlaw, (morph_then_ticks w page p j ts1 Hreach Hp Hasc1).
    by apply linear_law_mono.
  - intros e Hadm Hlt.
    apply (progress_lowered_by_morph_only e page); [|done|done].
    by apply (reachable_invariant w).
Qed.

Lemma loaded_page_reachable : Reachable Examples.draws_half Examples.loaded_page.
Proof.
  apply (reach_event Examples.draws_half (script_loaded Examples.draws_half)
           (AssetLoaded Examples.four_meshes)).
  - apply reach_loaded.
  - by apply adm_loaded.
Qed.

Lemma C8_progress_law_witness :
  progress (run [MorphCalled 1] Examples.loaded_page) = 0%Q /\
  (progress (run (MorphCalled 1 :: (TweenTicked <$> [1; 2; 5]%Q)) Examples.loaded_page)
   == 1)%Q /\
  (progress (run (MorphCalled 1 :: (TweenTicked <$> [1; 2]%Q)) Examples.loaded_page)
   == 2 # 3)%Q.
Proof.
  destruct (particles Examples.loaded_page) as [p|] eqn:Hp; [|discriminate Hp].
  assert (Htime : Gsap.time (gsap Examples.loaded_page) = 0%Q) by reflexivity.
  destruct (C8_progress_law Examples.draws_half Examples.loaded_page p 1 [1; 2; 5]%Q
              loaded_page_reachable Hp)
    as (Hzero & _ & _ & _ & Hend & _ & _).
  { rewrite Htime. cbn. repeat split; discriminate. }
  destruct (C8_progress_law Examples.draws_half Examples.loaded_page p 1 [1; 2]%Q
              loaded_page_reachable Hp)
    as (_ & _ & _ & Hin & _ & _ & _).
  { rewrite Htime. cbn. repeat split; discriminate. }
  split; [exact Hzero|]. split.
  - apply Hend. rewrite Htime. cbn. discriminate.
  - rewrite Hin; [rewrite Htime; reflexivity|]. rewrite Htime. cbn. discriminate.
Defined.

(** * Further properties of the normalizer *)

Lemma max_count_acc (l : list BufferAttribute) :
  forall a : nat,
    a <= foldl (fun maxCount position =>
                  if maxCount <? count position then count position else maxCount) a l /\
    Forall (fun p =>
              count p <= foldl (fun maxCount position =>
                  if maxCount <? count position then count position else maxCount) a l) l /\
    (foldl (fun maxCount position =>
              if maxCount <? count position then count position else maxCount) a l = a \/
     exists p, p ∈ l /\
       count p = foldl (fun maxCount position =>
                  if maxCount <? count position then count position else maxCount) a l).
Proof.
  induction l as [|q l IH]; intros a; cbn [foldl].
  - split; [done|]. split; [constructor|by left].
  - destruct (IH (if a <? count q then count q else a)) as (Hge & Hall & Hatt).
    destruct (a <? count q) eqn:Hlt.
    + apply Nat.ltb_lt in Hlt. split; [lia|]. split.
      * constructor; [lia|done].
      * right. destruct Hatt as [->|(p & Hp & Hc)].
        -- exists q. split; [by left|done].
        -- exists p. split; [by right|done].
    + apply Nat.ltb_ge in Hlt. split; [lia|]. split.
      * constructor; [lia|done].
      * destruct Hatt as [Hm|(p & Hp & Hc)]; [by left|].
        right. exists p. split; [by right|done].
Qed.

(** [maxCount] (lines 107-116) is 0 for no mesh, is at least the count of
    every mesh, and for at least one mesh is the count of one of them. *)
Theorem max_count_is_maximum (gltf : list BufferAttribute) :
  max_count [] = 0 /\
  (forall p, p ∈ gltf -> count p <= max_count gltf) /\
  (gltf ≠ [] -> exists p, p ∈ gltf /\ count p = max_count gltf).
Proof.
  split; [reflexivity|].
  destruct (max_count_acc gltf 0) as (_ & Hall & Hatt). fold (max_count gltf) in *.
  split.
  - intros p Hp. rewrite Forall_forall in Hall. by apply Hall.
  - intros Hne. destruct Hatt as [Hz|Hex]; [|done].
    destruct gltf as [|q l]; [done|].
    exists q. split; [by left|].
    assert (Hq : count q <= max_count (q :: l)).
    { rewrite Forall_forall in Hall. apply Hall. by left. }
    lia.
Qed.

Lemma max_count_is_maximum_witness :
  exists p, p ∈ Examples.four_meshes /\ count p = max_count Examples.four_meshes.
Proof.
  destruct (max_count_is_maximum Examples.four_meshes) as (_ & _ & Hatt).
  apply Hatt. discriminate.
Defined.

(** Whatever the input, every attribute in [particles.positions] has
    [maxCount] points, an array of [3 * maxCount] floats and item size 3. *)
Theorem positions_uniform (gltf : list BufferAttribute) (w : JS.World) :
  Forall (fun out => count out = max_count gltf /\
                     length (array out) = max_count gltf * 3 /\
                     itemSize out = 3)
         (positions (fst (build_particles gltf w))).
Proof.
  destruct (build_particles_positions gltf w) as (-> & _).
  apply normalize_counts.
Qed.

(** The number of attributes in [particles.positions] is the number of
    input attributes whose array length differs from [maxCount]; it never
    exceeds the number of inputs. *)
Theorem positions_length (gltf : list BufferAttribute) (w : JS.World) :
  length (positions (fst (build_particles gltf w)))
  = length (filter (fun p => length (array p) ≠ max_count gltf) gltf) /\
  length (positions (fst (build_particles gltf w))) <= length gltf.
Proof.
  destruct (build_particles_positions gltf w) as (-> & _).
  split; [|apply normalize_counts].
  generalize (max_count gltf). intros n. revert w.
  induction gltf as [|p l IH]; intros w; [done|].
  rewrite normalize_cons. cbn [fst]. rewrite length_app, IH.
  unfold normalize_body.
  destruct (decide (length (array p) = n)) as [Heq|Hne].
  - rewrite filter_cons_False by (intros H; by apply H).
    apply Nat.eqb_eq in Heq. rewrite Heq. done.
  - rewrite filter_cons_True by done.
    apply Nat.eqb_neq in Hne. rewrite Hne.
    destruct (pad n p w) as [a w1]. done.
Qed.

(** When the guard of line 122 fires for no mesh, [particles.positions[i]]
    is built from the [i]-th mesh: it has [maxCount] points, begins with the
    points of that mesh in order, and each further point is a point of that
    same mesh. *)
Theorem positions_follow_meshes (gltf : list BufferAttribute) (w : JS.World)
    (i : nat) (p : BufferAttribute) :
  Forall (fun q => length (array q) ≠ max_count gltf) gltf ->
  JS.unit_draws w ->
  gltf !! i = Some p ->
  well_formed p ->
  0 < count p ->
  length (positions (fst (build_particles gltf w))) = length gltf /\
  exists out,
    positions (fst (build_particles gltf w)) !! i = Some out /\
    count out = max_count gltf /\
    (forall k, k < count p -> point out k = point p k) /\
    (forall k, count p <= k < max_count gltf ->
       exists j, j < count p /\ point out k = point p j).
Proof.
  intros Hguard Hdraws Hi Hwf Hpos.
  destruct (build_particles_positions gltf w) as (-> & _).
  split; [by apply normalize_all_emitted|].
  assert (Hle : count p <= max_count gltf).
  { destruct (max_count_acc gltf 0) as (_ & Hall & _). fold (max_count gltf) in Hall.
    rewrite Forall_forall in Hall. apply Hall. by eapply list_elem_of_lookup_2. }
  pose proof (take_drop_middle gltf i p Hi) as Hsplit.
  set (n := max_count gltf) in *.
  rewrite <- Hsplit in Hguard |- *.
  apply Forall_app in Hguard as [Hbefore Hrest].
  inversion Hrest as [|? ? Hp _]; subst.
  destruct (normalize_emits n (take i gltf) (drop (S i) gltf) p w Hp)
    as (id & wb & Hd & _ & Hout).
  rewrite (normalize_all_emitted n (take i gltf) w Hbefore) in Hout.
  rewrite length_take_le in Hout by (apply Nat.lt_le_incl; by eapply lookup_lt_Some).
  eexists. split; [exact Hout|].
  destruct (pad_fidelity n p wb id Hwf (unit_draws_same _ _ Hd Hdraws) Hpos)
    as (Hc & _ & Hfirst & Hlast).
  split; [exact Hc|]. split; [|exact Hlast].
  intros k Hk. apply Hfirst; lia.
Qed.

Lemma positions_follow_meshes_witness :
  exists out,
    positions (fst (build_particles Examples.four_meshes Examples.draws_half)) !! 2
    = Some out /\
    count out = max_count Examples.four_meshes /\
    (forall k, k < count Examples.one_point -> point out k = point Examples.one_point k).
Proof.
  destruct (positions_follow_meshes Examples.four_meshes Examples.draws_half 2
              Examples.one_point) as (_ & out & Hout & Hc & Hfirst & _).
  - repeat constructor; vm_compute; discriminate.
  - exact draws_half_unit.
  - reflexivity.
  - split; reflexivity.
  - vm_compute. lia.
  - exists out. split; [exact Hout|]. split; [exact Hc|exact Hfirst].
Defined.

Lemma full_variant_rebuilt_witness :
  exists out,
    positions (fst (build_particles ([Examples.two_points] ++ Examples.four_points
                                       :: [Examples.one_point])
                      Examples.draws_half))
      !! length (fst (normalize
                        (max_count ([Examples.two_points] ++ Examples.four_points
                                      :: [Examples.one_point]))
                        [Examples.two_points] Examples.draws_half)) = Some out /\
    array out = array Examples.four_points /\
    JS.next_object Examples.draws_half <= attr_id out.
Proof.
  apply (full_variant_rebuilt [Examples.two_points] [Examples.one_point]
           Examples.four_points Examples.draws_half).
  - split; reflexivity.
  - vm_compute. lia.
  - reflexivity.
Defined.

(** Identities handed out by one round of the loop. *)
Lemma normalize_body_ids (n : nat) (p : BufferAttribute) (w : JS.World) :
  Forall (fun out => JS.next_object w <= attr_id out
                     < JS.next_object (snd (normalize_body n ([], w) p)))
         (fst (normalize_body n ([], w) p)) /\
  NoDup (attr_id <$> fst (normalize_body n ([], w) p)).
Proof.
  unfold normalize_body.
  destruct (length (array p) =? n).
  - cbn. split; constructor.
  - pose proof (pad_spec n p w) as Hspec.
    destruct (pad n p w) as [a w1]. destruct Hspec as (_ & _ & Hobj & _).
    cbn [JS.new_object fst snd app JS.next_object Float32BufferAttribute].
    split.
    + constructor; [|constructor].
      unfold Float32BufferAttribute. cbn [attr_id]. lia.
    + apply NoDup_singleton.
Qed.

Lemma normalize_ids (n : nat) (l : list BufferAttribute) :
  forall w : JS.World,
    Forall (fun out => JS.next_object w <= attr_id out
                       < JS.next_object (snd (normalize n l w)))
           (fst (normalize n l w)) /\
    NoDup (attr_id <$> fst (normalize n l w)).
Proof.
  induction l as [|p l IH]; intros w.
  - cbn. split; constructor.
  - rewrite normalize_cons. cbn [fst snd].
    destruct (normalize_body_ids n p w) as [Hall1 Hnd1].
    destruct (normalize_body_world n w p) as [_ Hmono1].
    set (w1 := snd (normalize_body n ([], w) p)) in *.
    destruct (IH w1) as [Hall2 Hnd2].
    destruct (normalize_world n l w1) as [_ Hmono2].
    split.
    + apply Forall_app. split.
      * eapply Forall_impl; [exact Hall1|]. cbn. intros x Hx. lia.
      * eapply Forall_impl; [exact Hall2|]. cbn. intros x Hx. lia.
    + rewrite fmap_app. apply NoDup_app. split; [done|]. split; [|done].
      intros x Hx1 Hx2.
      apply list_elem_of_fmap in Hx1 as (o1 & -> & Ho1).
      apply list_elem_of_fmap in Hx2 as (o2 & Heq & Ho2).
      rewrite Forall_forall in Hall1, Hall2.
      specialize (Hall1 o1 Ho1). specialize (Hall2 o2 Ho2). lia.
Qed.

(** The attributes in [particles.positions] are pairwise different objects,
    all allocated by the load callback: none of them is an object that
    existed before, so no input attribute is shared with the particle set. *)
Theorem positions_fresh_objects (gltf : list BufferAttribute) (w : JS.World) :
  NoDup (attr_id <$> positions (fst (build_particles gltf w))) /\
  (forall out,
     out ∈ positions (fst (build_particles gltf w)) ->
     JS.next_object w <= attr_id out) /\
  (Forall (fun p => attr_id p < JS.next_object w) gltf ->
   forall out p,
     out ∈ positions (fst (build_particles gltf w)) -> p ∈ gltf -> out ≠ p).
Proof.
  destruct (build_particles_positions gltf w) as (-> & _).
  destruct (normalize_ids (max_count gltf) gltf w) as [Hall Hnd].
  rewrite Forall_forall in Hall.
  split; [done|]. split.
  - intros out Hout. by apply Hall.
  - intros Hold out p Hout Hp ->.
    rewrite Forall_forall in Hold.
    specialize (Hall p Hout). specialize (Hold p Hp). lia.
Qed.

Lemma positions_fresh_objects_witness :
  NoDup (attr_id <$> positions (fst (build_particles Examples.four_meshes
                                       Examples.draws_half))) /\
  (forall out p,
     out ∈ positions (fst (build_particles Examples.four_meshes Examples.draws_half)) ->
     p ∈ Examples.four_meshes -> out ≠ p).
Proof.
  destruct (positions_fresh_objects Examples.four_meshes Examples.draws_half)
    as (Hnd & _ & Hne).
  split; [exact Hnd|].
  apply Hne. repeat constructor; vm_compute; lia.
Defined.

Lemma pad_body_calls (orig : list float32) (c : nat) (a : list float32)
    (w : JS.World) (i : nat) :
  JS.random_calls (snd (pad_body orig c (a, w) i))
  = JS.random_calls w + (if i * 3 <? length orig then 0 else 1).
Proof.
  unfold pad_body. destruct (i * 3 <? length orig); cbn; lia.
Qed.

Lemma pad_loop_draws (orig : list float32) (c n : nat) (w : JS.World) (m : nat) :
  length orig = c * 3 ->
  m <= n ->
  JS.random_calls (snd (foldl (pad_body orig c) (JS.new_Float32Array (n * 3), w) (seq 0 m)))
  = JS.random_calls w + (m - c) /\
  JS.random_draws (snd (foldl (pad_body orig c) (JS.new_Float32Array (n * 3), w) (seq 0 m)))
  = JS.random_draws w /\
  length (fst (foldl (pad_body orig c) (JS.new_Float32Array (n * 3), w) (seq 0 m))) = n * 3 /\
  forall k d, k < m -> d < 3 ->
    fst (foldl (pad_body orig c) (JS.new_Float32Array (n * 3), w) (seq 0 m)) !! (k * 3 + d)
    = Some (default F32.NaN
              (orig !! ((if k <? c then k
                         else Z.to_nat (JS.Math_floor
                                (inject_Z (Z.of_nat c)
                                 * JS.random_draws w (JS.random_calls w + (k - c)))))
                        * 3 + d))).
Proof.
  intros Hlen. induction m as [|m IH]; intros Hm.
  - cbn. unfold JS.new_Float32Array. rewrite length_replicate.
    repeat split; lia.
  - rewrite seq_S, foldl_snoc. cbn [Nat.add].
    destruct IH as (Hcalls & Hdraws & Hl & Hpts); [lia|].
    destruct (foldl (pad_body orig c) (JS.new_Float32Array (n * 3), w) (seq 0 m))
      as [a w1]. cbn [fst snd] in *.
    pose proof (pad_body_calls orig c a w1 m) as Hc.
    destruct (pad_body_spec orig c a w1 m) as (j & Hj & Hbody); [lia|].
    destruct (pad_body orig c (a, w1) m) as [a' w'].
    destruct Hbody as (Hl' & Hdraws' & _ & Hnew & Hold). cbn [fst snd] in *.
    assert (Hbr : (m * 3 <? length orig) = (m <? c)).
    { rewrite Hlen. destruct (m <? c) eqn:Hmc.
      - apply Nat.ltb_lt in Hmc. apply Nat.ltb_lt. lia.
      - apply Nat.ltb_ge in Hmc. apply Nat.ltb_ge. lia. }
    rewrite Hbr in Hc, Hj.
    split; [|split; [congruence|split; [congruence|]]].
    + rewrite Hc, Hcalls. destruct (m <? c) eqn:Hmc.
      * apply Nat.ltb_lt in Hmc. lia.
      * apply Nat.ltb_ge in Hmc. lia.
    + intros k d Hk Hd. destruct (decide (k = m)) as [->|Hne].
      * rewrite (Hnew d Hd). do 3 f_equal.
        destruct (m <? c); [by rewrite Hj|].
        rewrite Hj, Hdraws, Hcalls. done.
      * rewrite Hold by lia. apply Hpts; lia.
Qed.

(** Padding one attribute draws once per point beyond the original ones, in
    slot order, and never for a copied point: it makes [n - count] calls of
    [Math.random()]; the copied slots hold the original points, and a padded
    slot depends on the random source only through the draw made for it, so
    that two pages that have drawn equally often and agree on that draw fill
    the slot alike. *)
Theorem pad_draws (n : nat) (p : BufferAttribute) (w w' : JS.World) :
  well_formed p ->
  JS.random_calls w' = JS.random_calls w ->
  JS.random_calls (snd (pad n p w)) = JS.random_calls w + (n - count p) /\
  JS.random_draws (snd (pad n p w)) = JS.random_draws w /\
  (forall k d, k < n -> k < count p -> d < 3 ->
     fst (pad n p w) !! (k * 3 + d) = array p !! (k * 3 + d)) /\
  (forall k d, k < n -> count p <= k -> d < 3 ->
     JS.random_draws w' (JS.random_calls w + (k - count p))
     = JS.random_draws w (JS.random_calls w + (k - count p)) ->
     fst (pad n p w') !! (k * 3 + d) = fst (pad n p w) !! (k * 3 + d)).
Proof.
  intros Hwf Hsame. pose proof Hwf as [_ Hlen].
  destruct (pad_loop_draws (array p) (count p) n w n Hlen (le_n n))
    as (Hcalls & Hdraws & _ & Hpts).
  destruct (pad_loop_draws (array p) (count p) n w' n Hlen (le_n n))
    as (_ & _ & _ & Hpts').
  fold (pad n p w) in Hcalls, Hdraws, Hpts. fold (pad n p w') in Hpts'.
  split; [done|]. split; [done|]. split.
  - intros k d Hk Hc Hd. rewrite (Hpts k d Hk Hd).
    apply Nat.ltb_lt in Hc. rewrite Hc. apply Nat.ltb_lt in Hc.
    by apply in_range_defined.
  - intros k d Hk Hc Hd Hdraw. rewrite (Hpts k d Hk Hd), (Hpts' k d Hk Hd).
    apply Nat.ltb_ge in Hc. rewrite Hc, Hsame, Hdraw. done.
Qed.

Lemma pad_draws_witness :
  JS.random_calls (snd (pad 4 Examples.one_point Examples.draws_half))
  = JS.random_calls Examples.draws_half + (4 - count Examples.one_point) /\
  (forall k d, k < 4 -> count Examples.one_point <= k -> d < 3 ->
     fst (pad 4 Examples.one_point
            (JS.mkWorld (fun call => if call <? 3 then (1 # 2)%Q else 0%Q) 0 7)) !! (k * 3 + d)
     = fst (pad 4 Examples.one_point Examples.draws_half) !! (k * 3 + d)).
Proof.
  destruct (pad_draws 4 Examples.one_point Examples.draws_half
              (JS.mkWorld (fun call => if call <? 3 then (1 # 2)%Q else 0%Q) 0 7))
    as (Hcalls & _ & _ & Hpad).
  - split; reflexivity.
  - reflexivity.
  - split; [exact Hcalls|].
    intros k d Hk Hc Hd. apply Hpad; [done|done|done|].
    cbn in Hc |- *. destruct k as [|[|[|[|k]]]]; try lia; reflexivity.
Defined.

(** * Further properties of the morph controller *)

Lemma index_Z_elem_of {A : Type} (l : list A) (i : Z) (a : A) :
  JS.index_Z l i = Some a -> a ∈ l.
Proof.
  unfold JS.index_Z. destruct (i <? 0)%Z; [discriminate|].
  apply list_elem_of_lookup_2.
Qed.

Lemma handle_keeps_particles (e : Event) (page : Page) (p : Particles) :
  Trace.is_load e = false ->
  particles page = Some p ->
  exists p',
    particles (page_of (handle e page)) = Some p' /\
    positions p' = positions p /\
    maxCount p' = maxCount p /\
    world (page_of (handle e page)) = world page /\
    intervals (page_of (handle e page)) = intervals page.
Proof.
  intros Hload Hp. destruct e as [gltf| |j|el|t]; [discriminate| | | |]; cbn [handle].
  - unfold swap_callback, call_morph. rewrite Hp. eexists. cbn. done.
  - unfold call_morph. rewrite Hp. eexists. cbn. done.
  - unfold tick. rewrite Hp. eexists. cbn. done.
  - unfold gsap_tick. rewrite Hp.
    destruct (Gsap.tick t (uProgress p) (gsap page)) as [v g']. eexists. cbn. done.
Qed.

(** Once the particle set exists, no event other than a load changes
    [particles.positions] or [maxCount], calls [Math.random()], creates a
    position attribute or touches the interval: the variants are computed
    once. *)
Theorem variants_frozen_after_load (es : list Event) (page : Page) (p : Particles) :
  particles page = Some p ->
  Forall (fun e => Trace.is_load e = false) es ->
  exists p',
    particles (run es page) = Some p' /\
    positions p' = positions p /\
    maxCount p' = maxCount p /\
    JS.random_calls (world (run es page)) = JS.random_calls (world page) /\
    intervals (run es page) = intervals page.
Proof.
  intros Hp Hall.
  cut (exists p',
         particles (run es page) = Some p' /\
         positions p' = positions p /\
         maxCount p' = maxCount p /\
         world (run es page) = world page /\
         intervals (run es page) = intervals page).
  { intros (p' & Hp' & Hpos & Hmax & Hw & Hi). exists p'. by rewrite Hw. }
  revert page p Hp Hall. induction es as [|e es IH]; intros page p Hp Hall.
  - exists p. done.
  - inversion Hall as [|? ? He Hes]; subst. rewrite run_cons.
    destruct (handle_keeps_particles e page p He Hp) as (p1 & Hp1 & Hpos & Hmax & Hw & Hi).
    destruct (IH _ p1 Hp1 Hes) as (p' & Hp' & Hpos' & Hmax' & Hw' & Hi').
    exists p'. repeat split; congruence.
Qed.

Lemma variants_frozen_after_load_witness :
  exists p',
    particles (run [IntervalFired; TweenTicked 1; MorphCalled 3; FrameRequested 2]
                 Examples.loaded_page) = Some p' /\
    positions p'
    = positions (fst (build_particles Examples.four_meshes Examples.draws_half)) /\
    JS.random_calls (world (run [IntervalFired; TweenTicked 1; MorphCalled 3;
                                 FrameRequested 2] Examples.loaded_page))
    = JS.random_calls (world Examples.loaded_page).
Proof.
  destruct (variants_frozen_after_load
              [IntervalFired; TweenTicked 1; MorphCalled 3; FrameRequested 2]
              Examples.loaded_page
              (fst (build_particles Examples.four_meshes Examples.draws_half)))
    as (p' & Hp' & Hpos & _ & Hw & _).
  - reflexivity.
  - repeat constructor.
  - exists p'. split; [exact Hp'|]. split; [exact Hpos|exact Hw].
Defined.

Lemma attributes_invariant (w : JS.World) (page : Page) :
  Reachable w page ->
  forall p,
    particles page = Some p ->
    (forall a, position p = Some a -> a ∈ positions p) /\
    (forall a, aPositionTarget p = Some a -> a ∈ positions p) /\
    (aPositionTarget p = None \/
     aPositionTarget p = JS.index_Z (positions p) (index p)).
Proof.
  induction 1 as [|page e Hreach IH Hadm]; intros p Hp; [discriminate Hp|].
  assert (Hmorph : forall j q,
            particles page = Some q ->
            particles (page_of (call_morph j page)) = Some p ->
            (forall a, position p = Some a -> a ∈ positions p) /\
            (forall a, aPositionTarget p = Some a -> a ∈ positions p) /\
            (aPositionTarget p = None \/
             aPositionTarget p = JS.index_Z (positions p) (index p))).
  { intros j q Hq Hp'. unfold call_morph in Hp'. rewrite Hq in Hp'.
    cbn in Hp'. injection Hp' as <-. cbn.
    split; [intros a; apply index_Z_elem_of|].
    split; [intros a; apply index_Z_elem_of|by right]. }
  destruct Hadm as [gltf page Hnull| page | j page Hsome | el page | t page Ht];
    cbn [handle] in Hp.
  - unfold on_load, build_particles in Hp.
    destruct (normalize (max_count gltf) gltf (world page)) as [ps w'].
    cbn in Hp. injection Hp as <-. cbn.
    split; [intros a Ha; by eapply list_elem_of_lookup_2|].
    split; [discriminate|by left].
  - unfold swap_callback in Hp.
    destruct (particles page) as [q|] eqn:Hq.
    + by apply (Hmorph (next_index q) q).
    + cbn in Hp. congruence.
  - destruct (particles page) as [q|] eqn:Hq; [|done]. by apply (Hmorph j q).
  - unfold tick in Hp. destruct (particles page) as [q|] eqn:Hq.
    + cbn in Hp. injection Hp as <-. cbn. by apply IH.
    + cbn in Hp. congruence.
  - unfold gsap_tick in Hp. destruct (particles page) as [q|] eqn:Hq.
    + destruct (Gsap.tick t (uProgress q) (gsap page)) as [v g'].
      cbn in Hp. injection Hp as <-. cbn. by apply IH.
    + cbn in Hp. discriminate.
Qed.

(** On every page the script can be in, the two position attributes of the
    geometry are either undefined or attributes of [particles.positions],
    and the target attribute, once a morph has set it, is
    [positions[index]]. *)
Theorem attributes_point_into_positions (w : JS.World) (page : Page) (p : Particles) :
  Reachable w page ->
  particles page = Some p ->
  (forall a, position p = Some a -> a ∈ positions p) /\
  (forall a, aPositionTarget p = Some a -> a ∈ positions p) /\
  (aPositionTarget p = None \/
   aPositionTarget p = JS.index_Z (positions p) (index p)).
Proof. intros Hreach Hp. by apply (attributes_invariant w page). Qed.

Lemma attributes_point_into_positions_witness :
  exists p,
    particles (page_of (handle (MorphCalled 7) Examples.loaded_page)) = Some p /\
    (forall a, position p = Some a -> a ∈ positions p) /\
    (forall a, aPositionTarget p = Some a -> a ∈ positions p) /\
    (aPositionTarget p = None \/
     aPositionTarget p = JS.index_Z (positions p) (index p)).
Proof.
  destruct (particles (page_of (handle (MorphCalled 7) Examples.loaded_page)))
    as [p|] eqn:Hp; [|discriminate Hp].
  exists p. split; [reflexivity|].
  apply (attributes_point_into_positions Examples.draws_half
           (page_of (handle (MorphCalled 7) Examples.loaded_page)) p); [|exact Hp].
  apply reach_event; [exact loaded_page_reachable|].
  apply adm_morph. discriminate.
Defined.

(** The shape a transition leaves from is the shape the previous one went
    to: when the target attribute is defined, the next call of [morph]
    makes it the position attribute. *)
Theorem morph_starts_from_previous_target (w : JS.World) (page : Page)
    (p : Particles) (a : BufferAttribute) (j : Z) :
  Reachable w page ->
  particles page = Some p ->
  aPositionTarget p = Some a ->
  exists p',
    particles (page_of (call_morph j page)) = Some p' /\
    position p' = Some a /\
    aPositionTarget p' = JS.index_Z (positions p) j.
Proof.
  intros Hreach Hp Ha.
  destruct (attributes_invariant w page Hreach p Hp) as (_ & _ & [Hn|Ht]);
    [congruence|].
  unfold call_morph. rewrite Hp. unfold morph, Gsap.fromTo. eexists.
  cbn [page_of particles]. split; [reflexivity|].
  cbn [position aPositionTarget]. split; [congruence|reflexivity].
Qed.

Lemma morph_starts_from_previous_target_witness :
  exists a p',
    particles (page_of (call_morph 3 (page_of (handle (MorphCalled 2) Examples.loaded_page))))
    = Some p' /\
    position p' = Some a /\
    count a = 4.
Proof.
  eassert (Hp : particles (page_of (handle (MorphCalled 2) Examples.loaded_page)) = Some _)
    by (vm_compute; reflexivity).
  match type of Hp with
  | _ = Some ?p => eassert (Ha : aPositionTarget p = Some _) by (vm_compute; reflexivity)
  end.
  destruct (morph_starts_from_previous_target Examples.draws_half
              (page_of (handle (MorphCalled 2) Examples.loaded_page)) _ _ 3
              (reach_event _ _ _ loaded_page_reachable
                 (adm_morph 2 Examples.loaded_page ltac:(discriminate)))
              Hp Ha)
    as (p' & Hp' & Hpos & _).
  eexists. exists p'. split; [exact Hp'|]. split; [exact Hpos|]. vm_compute. reflexivity.
Defined.

Lemma linear_law_unit (t0 t : Q) :
  (0 <= linear_law t0 t)%Q /\ (linear_law t0 t <= 1)%Q.
Proof.
  unfold linear_law. split.
  - apply Q.min_glb; [discriminate|apply Q.le_max_l].
  - apply Q.le_min_l.
Qed.

(** The value a tick of the engine leaves in [uProgress]. *)
Lemma tick_progress_cases (t : Q) (page : Page) (p : Particles) :
  particles page = Some p ->
  (Gsap.tweens (gsap page) = [] /\
   progress (page_of (gsap_tick t page)) = uProgress p) \/
  (exists older tw,
     Gsap.tweens (gsap page) = older ++ [tw] /\
     progress (page_of (gsap_tick t page)) = Gsap.value_at tw t).
Proof.
  intros Hp. unfold progress, gsap_tick. rewrite Hp.
  destruct (snoc_or_nil (Gsap.tweens (gsap page))) as [Hnil|(older & tw & Hsnoc)].
  - left. split; [done|]. destruct (gsap page) as [t0 tws]. cbn in Hnil. subst. done.
  - right. exists older, tw. split; [done|].
    pose proof (tick_value_snoc t (uProgress p) (Gsap.time (gsap page)) older tw) as Hv.
    destruct (gsap page) as [t0 tws]. cbn in Hsnoc. subst tws.
    destruct (Gsap.tick t (uProgress p) _) as [v g']. cbn in *. done.
Qed.

(** On every page the script can be in, progress lies between 0 and 1. *)
Theorem progress_in_unit_interval (w : JS.World) (page : Page) :
  Reachable w page -> (0 <= progress page)%Q /\ (progress page <= 1)%Q.
Proof.
  induction 1 as [|page e Hreach IH Hadm].
  - cbn. split; discriminate.
  - pose proof (reachable_invariant w page Hreach) as (Hall & _ & _).
    assert (Hmorph : forall j,
              (0 <= progress (page_of (call_morph j page)))%Q /\
              (progress (page_of (call_morph j page)) <= 1)%Q).
    { intros j. unfold call_morph.
      destruct (particles page) as [q|] eqn:Hq; [|done].
      cbn. split; discriminate. }
    destruct Hadm as [gltf page Hnull| page | j page Hsome | el page | t page Ht];
      cbn [handle].
    + unfold on_load.
      pose proof (build_particles_positions gltf (world page)) as (_ & _ & _ & Hu).
      destruct (build_particles gltf (world page)) as [q w'].
      unfold progress. cbn in *. rewrite Hu. split; discriminate.
    + unfold swap_callback. destruct (particles page) as [q|] eqn:Hq; [apply Hmorph|done].
    + apply Hmorph.
    + unfold tick, progress in *. destruct (particles page) as [q|] eqn:Hq; cbn.
      * done.
      * rewrite Hq. done.
    + destruct (particles page) as [q|] eqn:Hq.
      * destruct (tick_progress_cases t page q Hq) as [[_ ->]|(older & tw & Hsnoc & ->)].
        -- unfold progress in IH. by rewrite Hq in IH.
        -- rewrite Hsnoc in Hall. apply Forall_app in Hall as [_ Htw].
           rewrite Forall_singleton in Htw. destruct Htw as [Htw _].
           rewrite (morph_tween_law tw t Htw). apply linear_law_unit.
      * unfold gsap_tick, progress. rewrite Hq. cbn. split; discriminate.
Qed.

Lemma progress_in_unit_interval_witness :
  (0 <= progress (page_of (handle (TweenTicked 2)
                             (page_of (handle (MorphCalled 1) Examples.loaded_page)))))%Q /\
  (progress (page_of (handle (TweenTicked 2)
                        (page_of (handle (MorphCalled 1) Examples.loaded_page)))) <= 1)%Q.
Proof.
  apply (progress_in_unit_interval Examples.draws_half).
  apply reach_event.
  - apply reach_event; [exact loaded_page_reachable|]. apply adm_morph. discriminate.
  - apply adm_tick. cbn. discriminate.
Defined.

(** Every transition ends: a tick three time units or more after the
    engine's current time leaves no live tween, and if there was one,
    progress is 1. *)
Theorem transitions_end (w : JS.World) (page : Page) (p : Particles) (t : Q) :
  Reachable w page ->
  particles page = Some p ->
  (Gsap.time (gsap page) + 3 <= t)%Q ->
  Gsap.tweens (gsap (page_of (gsap_tick t page))) = [] /\
  (Gsap.tweens (gsap page) ≠ [] -> (progress (page_of (gsap_tick t page)) == 1)%Q) /\
  (Gsap.tweens (gsap page) = [] -> progress (page_of (gsap_tick t page)) = progress page).
Proof.
  intros Hreach Hp Ht.
  destruct (reachable_invariant w page Hreach) as (Hall & _ & _).
  split; [|split].
  - unfold gsap_tick. rewrite Hp.
    destruct (Gsap.tick t (uProgress p) (gsap page)) as [v g'] eqn:Htick.
    unfold Gsap.tick in Htick. injection Htick as _ <-. cbn.
    induction (Gsap.tweens (gsap page)) as [|tw tws IHt]; [done|].
    inversion Hall as [|? ? [Htw Hs] Hrest]; subst.
    rewrite filter_cons_False; [by apply IHt|].
    destruct Htw as (_ & _ & Hd & _).
    unfold Gsap.completed. rewrite Hd.
    assert (Hc : Qle_bool 3 (t - Gsap.start tw) = true) by (apply Qle_bool_iff; lra).
    rewrite Hc. discriminate.
  - intros Hne.
    destruct (tick_progress_cases t page p Hp) as [[Hnil _]|(older & tw & Hsnoc & ->)];
      [done|].
    rewrite Hsnoc in Hall. apply Forall_app in Hall as [_ Htw].
    rewrite Forall_singleton in Htw. destruct Htw as [Htw Hs].
    rewrite (morph_tween_law tw t Htw). unfold linear_law.
    apply linear_law_end. lra.
  - intros Hnil.
    destruct (tick_progress_cases t page p Hp) as [[_ ->]|(older & tw & Hsnoc & _)].
    + unfold progress. by rewrite Hp.
    + rewrite Hnil in Hsnoc. destruct older; discriminate.
Qed.

Lemma transitions_end_witness :
  Gsap.tweens (gsap (page_of (gsap_tick 3
                     (page_of (handle (MorphCalled 1) Examples.loaded_page))))) = [] /\
  (progress (page_of (gsap_tick 3
               (page_of (handle (MorphCalled 1) Examples.loaded_page)))) == 1)%Q.
Proof.
  destruct (particles (page_of (handle (MorphCalled 1) Examples.loaded_page)))
    as [p|] eqn:Hp; [|discriminate Hp].
  destruct (transitions_end Examples.draws_half
              (page_of (handle (MorphCalled 1) Examples.loaded_page)) p 3)
    as (Hnil & Hone & _).
  - apply reach_event; [exact loaded_page_reachable|]. apply adm_morph. discriminate.
  - exact Hp.
  - cbn. discriminate.
  - split; [exact Hnil|]. apply Hone. cbn. discriminate.
Defined.

Lemma call_morph_some (j : Z) (page : Page) (p : Particles) :
  particles page = Some p ->
  page_of (call_morph j page)
  = mkPage (Some (mkParticles j (maxCount p) (positions p)
                    (JS.index_Z (positions p) (index p))
                    (JS.index_Z (positions p) j) 0 (rotation p)))
      (Gsap.mkEngine (Gsap.time (gsap page))
         (Gsap.tweens (gsap page)
          ++ [Gsap.mkTween (Gsap.time (gsap page)) 0 1 3 Gsap.linear]))
      (world page) (intervals page).
Proof. intros Hp. unfold call_morph. rewrite Hp. reflexivity. Qed.

Lemma swap_callback_some (page : Page) (p : Particles) :
  particles page = Some p ->
  page_of (swap_callback page) = page_of (call_morph (next_index p) page).
Proof. intros Hp. unfold swap_callback. rewrite Hp. reflexivity. Qed.

(** After [morph(j)] with [j] at or beyond the number of variants, the next
    firing of the interval goes to variant 0: the index is 0 and the target
    is defined, but the transition starts from an undefined position
    attribute ([positions[j]]); one firing later both attributes are
    defined again. *)
Theorem large_index_recovers (page : Page) (p : Particles) (j : Z) :
  particles page = Some p ->
  0 < length (positions p) ->
  (Z.of_nat (length (positions p)) <= j)%Z ->
  (exists p1,
     particles (run [MorphCalled j; IntervalFired] page) = Some p1 /\
     index p1 = 0%Z /\
     position p1 = None /\
     aPositionTarget p1 = positions p !! 0 /\
     is_Some (aPositionTarget p1)) /\
  (exists p2,
     particles (run [MorphCalled j; IntervalFired; IntervalFired] page) = Some p2 /\
     index p2 = (1 mod Z.of_nat (length (positions p)))%Z /\
     position p2 = positions p !! 0 /\
     is_Some (position p2) /\
     is_Some (aPositionTarget p2)).
Proof.
  intros Hp Hn Hj.
  assert (H0 : is_Some (positions p !! 0)) by (apply lookup_lt_is_Some; lia).
  assert (Hout : JS.index_Z (positions p) j = None).
  { apply index_Z_out_of_range. lia. }
  rewrite !run_cons. cbn [run foldl handle].
  rewrite (call_morph_some j page p Hp).
  set (page1 := mkPage _ _ _ _).
  set (p1 := mkParticles j (maxCount p) (positions p)
               (JS.index_Z (positions p) (index p))
               (JS.index_Z (positions p) j) 0 (rotation p)).
  assert (Hp1 : particles page1 = Some p1) by reflexivity.
  assert (Hnext1 : next_index p1 = 0%Z).
  { unfold next_index. cbn [p1 index positions].
    assert (Hge : (j >=? Z.of_nat (length (positions p)) - 1)%Z = true)
      by (apply Z.geb_le; lia).
    by rewrite Hge. }
  rewrite (swap_callback_some page1 p1 Hp1), Hnext1, (call_morph_some 0 page1 p1 Hp1).
  cbn [p1 index positions maxCount rotation]. rewrite Hout.
  set (page2 := mkPage _ _ _ _).
  set (p2 := mkParticles 0 (maxCount p) (positions p) None
               (JS.index_Z (positions p) 0) 0 (rotation p)).
  assert (Hp2 : particles page2 = Some p2) by reflexivity.
  split.
  - exists p2. cbn [p2 index position aPositionTarget]. repeat split; done.
  - assert (Hnext2 : next_index p2 = (1 mod Z.of_nat (length (positions p)))%Z).
    { unfold next_index. cbn [p2 index positions].
      destruct (0 >=? Z.of_nat (length (positions p)) - 1)%Z eqn:Hge.
      - apply Z.geb_le in Hge.
        replace (Z.of_nat (length (positions p))) with 1%Z by lia. done.
      - rewrite Z.geb_leb in Hge. apply Z.leb_gt in Hge.
        rewrite Z.mod_small by lia. done. }
    rewrite (swap_callback_some page2 p2 Hp2), Hnext2,
      (call_morph_some _ page2 p2 Hp2).
    eexists. split; [reflexivity|]. cbn [p2 index position aPositionTarget positions].
    split; [done|]. split; [done|]. split; [done|].
    apply index_Z_in_range. apply Z.mod_pos_bound. lia.
Qed.

Lemma large_index_recovers_witness :
  exists p2,
    particles (run [MorphCalled 7; IntervalFired; IntervalFired] Examples.loaded_page)
    = Some p2 /\
    index p2 = 1%Z /\
    is_Some (position p2) /\
    is_Some (aPositionTarget p2).
Proof.
  destruct (particles Examples.loaded_page) as [p|] eqn:Hp; [|discriminate Hp].
  assert (Hlen : length (positions p) = 4).
  { injection Hp as <-. vm_compute. reflexivity. }
  destruct (large_index_recovers Examples.loaded_page p 7 Hp) as (_ & p2 & H2 & Hi & _ & Hs & Ht).
  - rewrite Hlen. lia.
  - rewrite Hlen. lia.
  - exists p2. rewrite Hlen in Hi. split; [exact H2|]. split; [exact Hi|].
    split; [exact Hs|exact Ht].
Defined.

Lemma fired_negative (k : nat) :
  forall (page : Page) (p : Particles),
    particles page = Some p ->
    (index p < 0)%Z ->
    (Z.of_nat k <= - index p)%Z ->
    (k = 0 \/ aPositionTarget p = JS.index_Z (positions p) (index p)) ->
    exists p',
      particles (run (replicate k IntervalFired) page) = Some p' /\
      positions p' = positions p /\
      index p' = (index p + Z.of_nat k)%Z /\
      (k = 0 \/ aPositionTarget p' = JS.index_Z (positions p') (index p')).
Proof.
  induction k as [|k IH]; intros page p Hp Hneg Hk Ht.
  - exists p. cbn. rewrite Z.add_0_r. split; [done|]. split; [done|]. split; [done|by left].
  - rewrite replicate_S_end, run_app.
    destruct (IH page p Hp Hneg ltac:(lia)) as (p1 & Hp1 & Hpos & Hidx & _).
    { destruct k; [by left|]. right. destruct Ht as [Ht|Ht]; [lia|done]. }
    unfold run at 1. cbn [foldl handle]. unfold swap_callback, call_morph.
    rewrite Hp1. cbn [morph Gsap.fromTo page_of particles].
    eexists. split; [reflexivity|]. cbn [positions index aPositionTarget].
    assert (Hnext : next_index p1 = (index p1 + 1)%Z).
    { unfold next_index.
      destruct (index p1 >=? Z.of_nat (length (positions p1)) - 1)%Z eqn:Hge; [|done].
      apply Z.geb_le in Hge. lia. }
    rewrite Hnext. split; [done|]. split; [lia|]. by right.
Qed.

(** After [morph(j)] with a negative [j], each firing of the interval raises
    the index by one; as long as it is negative the target attribute is
    undefined, so the interval needs [-j] firings to reach variant 0. *)
Theorem negative_index_climbs (page : Page) (p : Particles) (j : Z) (k : nat) :
  particles page = Some p ->
  (j < 0)%Z ->
  (Z.of_nat k <= - j)%Z ->
  exists p',
    particles (run (MorphCalled j :: replicate k IntervalFired) page) = Some p' /\
    index p' = (j + Z.of_nat k)%Z /\
    ((j + Z.of_nat k < 0)%Z -> aPositionTarget p' = None).
Proof.
  intros Hp Hj Hk. rewrite run_cons. cbn [handle]. unfold call_morph. rewrite Hp.
  cbn [morph Gsap.fromTo page_of].
  destruct (fired_negative k
              (mkPage (Some (mkParticles j (maxCount p) (positions p)
                               (JS.index_Z (positions p) (index p))
                               (JS.index_Z (positions p) j) 0 (rotation p)))
                 (Gsap.mkEngine (Gsap.time (gsap page))
                    (Gsap.tweens (gsap page)
                     ++ [Gsap.mkTween (Gsap.time (gsap page)) 0 1 3 Gsap.linear]))
                 (world page) (intervals page))
              _ eq_refl) as (p' & Hp' & Hpos & Hidx & Ht); cbn [index]; try done.
  { by right. }
  exists p'. cbn [index] in Hidx. split; [exact Hp'|]. split; [exact Hidx|].
  intros Hstill. destruct Ht as [->|Ht].
  - assert (Heq : p' = mkParticles j (maxCount p) (positions p)
                         (JS.index_Z (positions p) (index p))
                         (JS.index_Z (positions p) j) 0 (rotation p)).
    { cbn in Hp'. congruence. }
    rewrite Heq. cbn [aPositionTarget]. apply index_Z_out_of_range. lia.
  - rewrite Ht. apply index_Z_out_of_range. lia.
Qed.

Lemma negative_index_climbs_witness :
  exists p',
    particles (run (MorphCalled (-2) :: replicate 1 IntervalFired) Examples.loaded_page)
    = Some p' /\
    index p' = (-2 + Z.of_nat 1)%Z /\
    aPositionTarget p' = None.
Proof.
  destruct (particles Examples.loaded_page) as [p|] eqn:Hp; [|discriminate Hp].
  destruct (negative_index_climbs Examples.loaded_page p (-2) 1 Hp) as (p' & Hp' & Hi & Ht).
  - reflexivity.
  - cbn. discriminate.
  - exists p'. split; [exact Hp'|]. split; [exact Hi|]. apply Ht. reflexivity.
Defined.

(** Before the asset is loaded, firings of the interval and frames leave the
    page exactly as the script left it, however many there are; the load
    callback then builds the same particle set as if nothing had fired. *)
Theorem early_firings_are_harmless (w : JS.World) (es : list Event)
    (gltf : list BufferAttribute) :
  Forall (fun e => e = IntervalFired \/ exists elapsedTime, e = FrameRequested elapsedTime) es ->
  run es (script_loaded w) = script_loaded w /\
  run (es ++ [AssetLoaded gltf]) (script_loaded w)
  = page_of (on_load gltf (script_loaded w)).
Proof.
  intros Hall.
  assert (Hrun : run es (script_loaded w) = script_loaded w).
  { induction es as [|e es IH]; [done|].
    inversion Hall as [|? ? He Hes]; subst. rewrite run_cons.
    destruct He as [->|[el ->]]; cbn [handle]; by apply IH. }
  split; [done|]. rewrite run_app, Hrun. reflexivity.
Qed.

Lemma early_firings_are_harmless_witness :
  run ([IntervalFired; FrameRequested 1; IntervalFired] ++ [AssetLoaded Examples.four_meshes])
    (script_loaded Examples.draws_half)
  = Examples.loaded_page.
Proof.
  apply (early_firings_are_harmless Examples.draws_half
           [IntervalFired; FrameRequested 1; IntervalFired] Examples.four_meshes).
  constructor; [by left|]. constructor; [right; by exists 1%Q|].
  constructor; [by left|]. constructor.
Defined.

(** * Further properties of the fragment shader *)

(** At the sprite centre the distance is [+0.0] and the division gives
    [+infinity], not NaN: in binary32 [main] writes an infinite alpha
    there. *)
Theorem alpha_at_centre :
  Shader.length (Shader.vec2_sub_scalar (F32.literal 5 10, F32.literal 5 10)
                   (F32.literal 5 10)) = F32.zero /\
  Shader.alpha F32.zero = S754_infinity false /\
  Shader.a (Shader.main (F32.literal 5 10, F32.literal 5 10)) = S754_infinity false.
Proof. repeat split; vm_compute; reflexivity. Qed.

(** * The resize handler *)

(** The pixel ratio kept in [sizes] never exceeds 2 nor the device's; the
    handler writes [uResolution] only when the particle set exists, and then
    the value is the window size times that ratio, whatever was there
    before; a resize before the load is not lost, because the load callback
    creates the uniform from the sizes of the latest resize. *)
Theorem resize_resolution (win : Viewport.Window) (page : Page) (v : Viewport.View) :
  (Viewport.pixelRatio (Viewport.sizes (Viewport.on_resize win page v)) <= 2)%Q /\
  (Viewport.pixelRatio (Viewport.sizes (Viewport.on_resize win page v))
   <= Viewport.devicePixelRatio win)%Q /\
  (particles page = None ->
   Viewport.uResolution (Viewport.on_resize win page v) = Viewport.uResolution v /\
   Viewport.uResolution (Viewport.on_material (Viewport.on_resize win page v))
   = Some (Viewport.resolution (Viewport.measure win))) /\
  (particles page ≠ None ->
   Viewport.uResolution (Viewport.on_resize win page v)
   = Some ((Viewport.innerWidth win * Qmin (Viewport.devicePixelRatio win) 2)%Q,
           (Viewport.innerHeight win * Qmin (Viewport.devicePixelRatio win) 2)%Q) /\
   forall v', Viewport.on_resize win page v' = Viewport.on_resize win page v) /\
  ((0 <= Viewport.innerWidth win)%Q ->
   (fst (Viewport.resolution (Viewport.sizes (Viewport.on_resize win page v)))
    <= 2 * Viewport.innerWidth win)%Q).
Proof.
  assert (Hs : Viewport.sizes (Viewport.on_resize win page v) = Viewport.measure win).
  { unfold Viewport.on_resize. by destruct (particles page). }
  rewrite !Hs. cbn [Viewport.measure Viewport.pixelRatio Viewport.resolution
                    Viewport.width fst].
  split; [apply Q.le_min_r|]. split; [apply Q.le_min_l|]. split; [|split].
  - intros Hnone. unfold Viewport.on_resize, Viewport.on_material. rewrite Hnone. done.
  - intros Hsome. unfold Viewport.on_resize.
    destruct (particles page); [done|congruence].
  - intros Hw. pose proof (Q.le_min_r (Viewport.devicePixelRatio win) 2) as Hle.
    rewrite (Qmult_comm (Viewport.innerWidth win)). by apply Qmult_le_compat_r.
Qed.

Lemma resize_resolution_witness :
  Viewport.uResolution
    (Viewport.on_resize (Viewport.mkWindow 800 600 3) Examples.loaded_page
       (Viewport.on_material (Viewport.view_loaded (Viewport.mkWindow 1024 768 1))))
  = Some ((800 * Qmin 3 2)%Q, (600 * Qmin 3 2)%Q).
Proof.
  destruct (resize_resolution (Viewport.mkWindow 800 600 3) Examples.loaded_page
              (Viewport.on_material (Viewport.view_loaded (Viewport.mkWindow 1024 768 1))))
    as (_ & _ & _ & Hsome & _).
  apply Hsome. discriminate.
Defined.

(** * What only [morph] changes *)

Lemma handle_keeps_shapes (e : Event) (page : Page) (p : Particles) :
  Trace.is_load e = false ->
  Trace.is_morph e = false ->
  particles page = Some p ->
  exists p',
    particles (page_of (handle e page)) = Some p' /\
    index p' = index p /\
    position p' = position p /\
    aPositionTarget p' = aPositionTarget p.
Proof.
  intros Hload Hmorph Hp.
  destruct e as [gltf| |j|el|t]; try discriminate; cbn [handle].
  - unfold tick. rewrite Hp. eexists. cbn. done.
  - unfold gsap_tick. rewrite Hp.
    destruct (Gsap.tick t (uProgress p) (gsap page)) as [v g']. eexists. cbn. done.
Qed.

(** Frames and ticks of the tween engine, in any number and order, leave the
    index and the two position attributes of the geometry as they are: only
    a call of [morph] changes which shapes are shown. *)
Theorem only_morph_changes_shapes (es : list Event) (page : Page) (p : Particles) :
  particles page = Some p ->
  Forall (fun e => Trace.is_load e = false /\ Trace.is_morph e = false) es ->
  exists p',
    particles (run es page) = Some p' /\
    index p' = index p /\
    position p' = position p /\
    aPositionTarget p' = aPositionTarget p.
Proof.
  revert page p. induction es as [|e es IH]; intros page p Hp Hall.
  - exists p. done.
  - inversion Hall as [|? ? [Hl Hm] Hes]; subst. rewrite run_cons.
    destruct (handle_keeps_shapes e page p Hl Hm Hp) as (p1 & Hp1 & Hi & Hpos & Ht).
    destruct (IH _ p1 Hp1 Hes) as (p' & Hp' & Hi' & Hpos' & Ht').
    exists p'. repeat split; congruence.
Qed.

Lemma only_morph_changes_shapes_witness :
  exists p',
    particles (run [TweenTicked 1; FrameRequested 5; TweenTicked 4]
                 (page_of (handle (MorphCalled 2) Examples.loaded_page))) = Some p' /\
    index p' = 2%Z.
Proof.
  eassert (Hp : particles (page_of (handle (MorphCalled 2) Examples.loaded_page)) = Some _)
    by (vm_compute; reflexivity).
  destruct (only_morph_changes_shapes [TweenTicked 1; FrameRequested 5; TweenTicked 4]
              (page_of (handle (MorphCalled 2) Examples.loaded_page)) _ Hp)
    as (p' & Hp' & Hi & _).
  - repeat constructor.
  - exists p'. split; [exact Hp'|]. rewrite Hi. reflexivity.
Defined.

(** * C6: a second [morph] while the first transition is running *)

Lemma gsap_tick_engine (t : Q) (page : Page) :
  gsap (page_of (gsap_tick t page))
  = Gsap.mkEngine t (filter (fun x => Gsap.completed t x = false)
                       (Gsap.tweens (gsap page))).
Proof. unfold gsap_tick. destruct (particles page); reflexivity. Qed.

(** Ticks of the engine, one after the other, on a page the script can be
    in: the page stays one, the shapes shown stay, the clock is the last
    reading, and no tween appears. *)
Lemma ticks_state (w : JS.World) (ts : list Q) :
  forall (X : Page) (q : Particles),
    Reachable w X ->
    particles X = Some q ->
    ascending (Gsap.time (gsap X)) ts ->
    exists q',
      particles (run (TweenTicked <$> ts) X) = Some q' /\
      index q' = index q /\
      positions q' = positions q /\
      position q' = position q /\
      aPositionTarget q' = aPositionTarget q /\
      Reachable w (run (TweenTicked <$> ts) X) /\
      Gsap.time (gsap (run (TweenTicked <$> ts) X))
      = default (Gsap.time (gsap X)) (last ts) /\
      (forall tw,
         tw ∈ Gsap.tweens (gsap (run (TweenTicked <$> ts) X)) ->
         tw ∈ Gsap.tweens (gsap X)).
Proof.
  induction ts as [|t ts IH]; intros X q Hreach Hq Hasc.
  - exists q. cbn. done.
  - destruct Hasc as [Ht Hasc]. rewrite fmap_cons, run_cons, last_cons_default.
    assert (Hreach1 : Reachable w (page_of (handle (TweenTicked t) X))).
    { apply reach_event; [done|]. by apply adm_tick. }
    pose proof (gsap_tick_engine t X) as Heng.
    assert (Hq1 : exists q1,
               particles (page_of (handle (TweenTicked t) X)) = Some q1 /\
               index q1 = index q /\ positions q1 = positions q /\
               position q1 = position q /\ aPositionTarget q1 = aPositionTarget q).
    { cbn [handle]. unfold gsap_tick. rewrite Hq.
      destruct (Gsap.tick t (uProgress q) (gsap X)) as [v g']. eexists. cbn. done. }
    destruct Hq1 as (q1 & Hq1 & Hi1 & Hps1 & Hpo1 & Hta1).
    cbn [handle] in *.
    destruct (IH _ q1 Hreach1 Hq1) as (q' & Hq' & Hi & Hps & Hpo & Hta & Hr & Htime & Hsub).
    { by rewrite Heng. }
    exists q'. rewrite Heng in Htime. cbn [Gsap.time] in Htime.
    repeat split; try congruence; try done.
    intros tw Htw. specialize (Hsub tw Htw). rewrite Heng in Hsub.
    cbn [Gsap.tweens] in Hsub. by apply list_elem_of_filter in Hsub as [_ Hsub].
Qed.

Lemma filter_live_twice (t t' : Q) (l : list Gsap.Tween) :
  Forall morph_tween l ->
  (t <= t')%Q ->
  filter (fun x => Gsap.completed t' x = false)
    (filter (fun x => Gsap.completed t x = false) l)
  = filter (fun x => Gsap.completed t' x = false) l.
Proof.
  intros Hall Hle. induction l as [|x l IH]; [done|].
  inversion Hall as [|? ? Hx Hl]; subst.
  destruct (Gsap.completed t x) eqn:Hc.
  - rewrite (filter_cons_False _ x l) by congruence.
    rewrite (filter_cons_False _ x l); [by apply IH|].
    destruct Hx as (_ & _ & Hd & _). unfold Gsap.completed in *.
    rewrite Hd in *. apply Qle_bool_iff in Hc.
    assert (Hc' : Qle_bool 3 (t' - Gsap.start x) = true) by (apply Qle_bool_iff; lra).
    rewrite Hc'. discriminate.
  - rewrite (filter_cons_True _ x l) by done.
    destruct (Gsap.completed t' x) eqn:Hc'.
    + rewrite !filter_cons_False by congruence. by apply IH.
    + rewrite !filter_cons_True by done. f_equal. by apply IH.
Qed.

(** After ticks that do not go back, the live tweens are those that have not
    completed at the last reading. *)
Lemma ticks_tweens (ts : list Q) :
  forall X : Page,
    Forall morph_tween (Gsap.tweens (gsap X)) ->
    ascending (Gsap.time (gsap X)) ts ->
    ts ≠ [] ->
    Gsap.tweens (gsap (run (TweenTicked <$> ts) X))
    = filter (fun x => Gsap.completed (default (Gsap.time (gsap X)) (last ts)) x = false)
        (Gsap.tweens (gsap X)).
Proof.
  induction ts as [|t ts IH]; intros X Hall Hasc Hne; [done|].
  destruct Hasc as [Ht Hasc]. rewrite fmap_cons, run_cons, last_cons_default.
  cbn [handle]. pose proof (gsap_tick_engine t X) as Heng.
  destruct ts as [|t' ts'].
  - cbn. by rewrite Heng.
  - rewrite IH; [|rewrite Heng; cbn [Gsap.tweens]| by rewrite Heng | done].
    + rewrite Heng. cbn [Gsap.tweens Gsap.time].
      apply filter_live_twice; [done|].
      apply (ascending_last_le (t' :: ts') t Hasc).
    + apply Forall_forall. intros x Hx. apply list_elem_of_filter in Hx as [_ Hx].
      rewrite Forall_forall in Hall. by apply Hall.
Qed.

Lemma filter_live_nil (t : Q) (l : list Gsap.Tween) :
  Forall (fun x => Gsap.completed t x = true) l ->
  filter (fun x => Gsap.completed t x = false) l = [].
Proof.
  induction 1 as [|x l Hx _ IH]; [done|].
  rewrite filter_cons_False by congruence. done.
Qed.

(** C6.  A second call [morph(j)], made at clock reading [t1] while the
    transition of an earlier [morph(i)] (made at [t0]) has not completed
    ([t1 < t0 + 3], progress below 1), immediately makes [positions[j]] the
    target, stores [j] and restarts progress at 0.  From then on the morph
    state is that of one transition, from [positions[i]] to [positions[j]],
    started at [t1]: after every later tick, at reading [t], the index is
    [j], the two attributes are these, and progress is
    [min(1, (t - t1) / 3)], whatever the first call was.  The tween record
    of the first call writes nothing that outlasts a tick; it has left the
    engine at the first tick at or after [t0 + 3], and no tween is left from
    [t1 + 3] on. *)
Theorem C6_preemption (w : JS.World) (page : Page) (p : Particles) (i j : Z)
    (ts1 ts2 : list Q) :
  Reachable w page ->
  particles page = Some p ->
  ascending (Gsap.time (gsap page)) ts1 ->
  (default (Gsap.time (gsap page)) (last ts1) < Gsap.time (gsap page) + 3)%Q ->
  ascending (default (Gsap.time (gsap page)) (last ts1)) ts2 ->
  (progress (run (MorphCalled i :: (TweenTicked <$> ts1)) page) < 1)%Q /\
  exists pf,
    particles (run (MorphCalled i :: (TweenTicked <$> ts1)
                    ++ MorphCalled j :: (TweenTicked <$> ts2)) page) = Some pf /\
    index pf = j /\
    position pf = JS.index_Z (positions p) i /\
    aPositionTarget pf = JS.index_Z (positions p) j /\
    (ts2 = [] -> uProgress pf = 0%Q) /\
    (uProgress pf
     == linear_law (default (Gsap.time (gsap page)) (last ts1))
          (default (default (Gsap.time (gsap page)) (last ts1)) (last ts2)))%Q /\
    ((Gsap.time (gsap page) + 3
      <= default (default (Gsap.time (gsap page)) (last ts1)) (last ts2))%Q ->
     length (Gsap.tweens (gsap (run (MorphCalled i :: (TweenTicked <$> ts1)
                                     ++ MorphCalled j :: (TweenTicked <$> ts2)) page)))
     <= 1) /\
    ((default (Gsap.time (gsap page)) (last ts1) + 3
      <= default (default (Gsap.time (gsap page)) (last ts1)) (last ts2))%Q ->
     Gsap.tweens (gsap (run (MorphCalled i :: (TweenTicked <$> ts1)
                             ++ MorphCalled j :: (TweenTicked <$> ts2)) page)) = []).
Proof.
  intros Hreach Hp Hasc1 Hlt Hasc2.
  set (t0 := Gsap.time (gsap page)) in *.
  set (t1 := default t0 (last ts1)) in *.
  pose proof (ascending_last_le ts1 t0 Hasc1) as Ht01. fold t1 in Ht01.
  (* the first call *)
  split.
  { rewrite (morph_then_ticks w page p i ts1 Hreach Hp Hasc1).
    fold t0 t1. unfold linear_law. rewrite linear_law_inside by lra.
    apply Qlt_shift_div_r; [reflexivity|]. lra. }
  destruct (reachable_invariant w page Hreach) as (Hall0 & _ & _).
  pose proof (call_morph_some i page p Hp) as Hpage1.
  assert (Hreach1 : Reachable w (page_of (handle (MorphCalled i) page))).
  { apply reach_event; [done|]. apply adm_morph. congruence. }
  cbn [handle] in Hreach1.
  set (page1 := page_of (call_morph i page)) in *.
  assert (Hq1 : particles page1
                = Some (mkParticles i (maxCount p) (positions p)
                          (JS.index_Z (positions p) (index p))
                          (JS.index_Z (positions p) i) 0 (rotation p)))
    by (by rewrite Hpage1).
  assert (Htime1 : Gsap.time (gsap page1) = t0) by (by rewrite Hpage1).
  assert (Hold1 : Forall (fun x => (Gsap.start x <= t0)%Q) (Gsap.tweens (gsap page1))).
  { rewrite Hpage1. cbn [gsap Gsap.tweens]. apply Forall_app. split.
    - eapply Forall_impl; [exact Hall0|]. by intros x [_ Hx].
    - constructor; [apply Qle_refl|constructor]. }
  (* the ticks before the second call *)
  destruct (ticks_state w ts1 page1 _ Hreach1 Hq1)
    as (qB & HqB & HiB & HpsB & _ & _ & HreachB & HtimeB & HsubB).
  { by rewrite Htime1. }
  rewrite Htime1 in HtimeB. fold t1 in HtimeB.
  set (pageB := run (TweenTicked <$> ts1) page1) in *.
  cbn [index positions] in HiB, HpsB.
  assert (HoldB : Forall (fun x => (Gsap.start x <= t0)%Q) (Gsap.tweens (gsap pageB))).
  { apply Forall_forall. intros x Hx. rewrite Forall_forall in Hold1.
    apply Hold1. by apply HsubB. }
  (* the second call *)
  pose proof (call_morph_some j pageB qB HqB) as Hpage2.
  assert (Hreach2 : Reachable w (page_of (handle (MorphCalled j) pageB))).
  { apply reach_event; [done|]. apply adm_morph. congruence. }
  cbn [handle] in Hreach2.
  set (page2 := page_of (call_morph j pageB)) in *.
  assert (Hq2 : particles page2
                = Some (mkParticles j (maxCount qB) (positions qB)
                          (JS.index_Z (positions qB) (index qB))
                          (JS.index_Z (positions qB) j) 0 (rotation qB)))
    by (by rewrite Hpage2).
  assert (Htime2 : Gsap.time (gsap page2) = t1) by (by rewrite Hpage2).
  (* the ticks after it *)
  destruct (ticks_state w ts2 page2 _ Hreach2 Hq2)
    as (pf & Hpf & Hif & _ & Hpof & Htaf & _ & _ & _).
  { by rewrite Htime2. }
  cbn [index position aPositionTarget] in Hif, Hpof, Htaf.
  assert (Hrun : run (MorphCalled i :: (TweenTicked <$> ts1)
                      ++ MorphCalled j :: (TweenTicked <$> ts2)) page
                 = run (TweenTicked <$> ts2) page2).
  { rewrite run_cons, run_app, run_cons. reflexivity. }
  rewrite Hrun. exists pf.
  split; [exact Hpf|]. split; [exact Hif|].
  split; [by rewrite Hpof, HpsB, HiB|]. split; [by rewrite Htaf, HpsB|].
  split; [|split; [|split]].
  - intros ->. cbn in Hpf. rewrite Hq2 in Hpf. by injection Hpf as <-.
  - pose proof (morph_then_ticks w pageB qB j ts2 HreachB HqB) as Hlaw.
    rewrite HtimeB in Hlaw. specialize (Hlaw Hasc2).
    rewrite run_cons in Hlaw. cbn [handle] in Hlaw. fold page2 in Hlaw.
    unfold progress in Hlaw. by rewrite Hpf in Hlaw.
  - intros Hlate. destruct ts2 as [|t ts2']; [cbn in Hlate; lra|].
    destruct (reachable_invariant w page2 Hreach2) as (Hall2 & _ & _).
    rewrite ticks_tweens; [|eapply Forall_impl; [exact Hall2|]; by intros x [Hx _]
                           |by rewrite Htime2|done].
    rewrite Htime2, Hpage2. cbn [gsap Gsap.tweens].
    rewrite filter_app, (filter_live_nil _ (Gsap.tweens (gsap pageB))).
    + cbn [app]. etrans; [apply length_filter|]. done.
    + destruct (reachable_invariant w pageB HreachB) as (HallB & _ & _).
      apply Forall_forall. intros x Hx.
      rewrite Forall_forall in HallB, HoldB.
      destruct (HallB x Hx) as [(_ & _ & Hd & _) _]. specialize (HoldB x Hx).
      unfold Gsap.completed. rewrite Hd. apply Qle_bool_iff. lra.
  - intros Hlate. destruct ts2 as [|t ts2']; [cbn in Hlate; lra|].
    destruct (reachable_invariant w page2 Hreach2) as (Hall2 & _ & _).
    rewrite ticks_tweens; [|eapply Forall_impl; [exact Hall2|]; by intros x [Hx _]
                           |by rewrite Htime2|done].
    apply filter_live_nil. apply Forall_forall. intros x Hx.
    rewrite Forall_forall in Hall2. destruct (Hall2 x Hx) as [(_ & _ & Hd & _) Hs].
    rewrite Htime2 in Hs |- *.
    unfold Gsap.completed. rewrite Hd. apply Qle_bool_iff. lra.
Qed.

Lemma C6_preemption_witness :
  (progress (run (MorphCalled 2 :: (TweenTicked <$> [1%Q])) Examples.loaded_page) < 1)%Q /\
  exists pf,
    particles (run (MorphCalled 2 :: (TweenTicked <$> [1%Q])
                    ++ MorphCalled 2 :: (TweenTicked <$> [2%Q; 5%Q]))
                 Examples.loaded_page) = Some pf /\
    index pf = 2%Z /\
    (uProgress pf == 1)%Q /\
    Gsap.tweens (gsap (run (MorphCalled 2 :: (TweenTicked <$> [1%Q])
                            ++ MorphCalled 2 :: (TweenTicked <$> [2%Q; 5%Q]))
                         Examples.loaded_page)) = [].
Proof.
  eassert (Hp : particles Examples.loaded_page = Some _) by (vm_compute; reflexivity).
  destruct (C6_preemption Examples.draws_half Examples.loaded_page _ 2 2 [1%Q] [2%Q; 5%Q]
              loaded_page_reachable Hp)
    as (Hfirst & pf & Hpf & Hi & _ & _ & _ & Hlaw & _ & Hnil).
  - cbn. split; [discriminate|done].
  - reflexivity.
  - cbn. repeat split; discriminate.
  - split; [exact Hfirst|]. exists pf. split; [exact Hpf|]. split; [exact Hi|].
    split; [rewrite Hlaw; reflexivity|]. apply Hnil. cbn. discriminate.
Defined.
